(** * PixelLock: image encryption and LSB steganography (main.go)

    A shallow embedding of the data-transformation core of [main.go]:
    the AES-GCM framing of [Encrypt]/[Decrypt], the pixel loops of
    [hideMessage]/[revealMessage] and the directory walkers
    [encryptDirectory]/[decryptDirectory].

    Conventions.
    - A Go [uint8]/[uint32] is a [Z]; conversions that wrap are written out
      ([uint8]).
    - A Go [string] is a [string] (a sequence of 8-bit characters); a
      [[]byte] is a [list Z].
    - A Go [error] result is a [result]; the error values are the constructors
      of [error], one per [fmt.Errorf]/library failure site.
    - Library code (image, crypto/cipher, path/filepath, os) is modelled by
      small definitions or taken as an interface. *)

From Stdlib Require Import ZArith Lia Bool Ascii String.
From stdpp Require Import base list gmap strings.

Local Open Scope Z_scope.

(** ** Errors and results *)

Inductive error : Type :=
| ErrCreateCipher        (* "failed to create cipher: %w" *)
| ErrCreateGCM           (* "failed to create GCM: %w" *)
| ErrCreateNonce         (* "failed to create nonce: %w" *)
| ErrCiphertextTooShort  (* "ciphertext too short" *)
| ErrOpenGCM             (* "failed to open GCM: %w" *)
| ErrOpenImage           (* "failed to open image: %w" *)
| ErrDecodeImage         (* "failed to decode image: %w" *)
| ErrEncodeImage         (* "failed to encode image to bytes: %w" *)
| ErrDecodeBytes         (* "failed to decode bytes to image: %w" *)
| ErrCreateImageFile     (* "failed to create image file: %w" *)
| ErrEncodeJPEG          (* "failed to encode image to JPEG: %w" *)
| ErrEncodePNG           (* "failed to encode image to PNG: %w" *)
| ErrMkdirAll            (* error of os.MkdirAll *)
| ErrReadFile            (* error of ioutil.ReadFile *)
| ErrWriteFile           (* error of ioutil.WriteFile *)
| ErrLstat               (* error handed to the walk callback *)
| ErrReadDir             (* error handed to the walk callback *)
| ErrRel                 (* error of filepath.Rel *)
| ErrMessageTooLong.     (* "message too long. Max message length is %d characters" *)

Inductive result (A : Type) : Type :=
| Ok (a : A)
| Err (e : error).
Arguments Ok {A} a.
Arguments Err {A} e.

Definition is_Ok {A} (r : result A) : bool :=
  match r with Ok _ => true | Err _ => false end.

(** ** Constants of main.go *)

Definition KeySize : nat := 32.
Definition StegoMessageLimit : nat := 1000.
Definition EncryptedExtension : string := ".enc".

(** ** Bytes *)

Definition uint8 (z : Z) : Z := z mod 256.

Definition byte_of_ascii (c : ascii) : Z := Z.of_N (N_of_ascii c).
Definition ascii_of_byte (z : Z) : ascii := ascii_of_N (Z.to_N z).

(** [s[i]] for a Go string; the index is in range wherever the code uses it. *)
Definition str_index (s : string) (i : nat) : Z :=
  match String.get i s with
  | Some c => byte_of_ascii c
  | None => 0
  end.

(** [string(bytes)] / [bytes.Buffer.String()]. *)
Fixpoint string_of_bytes (l : list Z) : string :=
  match l with
  | [] => EmptyString
  | b :: l' => String (ascii_of_byte b) (string_of_bytes l')
  end.

Fixpoint bytes_of_string (s : string) : list Z :=
  match s with
  | EmptyString => []
  | String c s' => byte_of_ascii c :: bytes_of_string s'
  end.

Definition NUL : ascii := Ascii.zero.

(** [strings.Split(s, sep)] for a one-character separator: the pieces of [s]
    between occurrences of [sep]; never empty. *)
Fixpoint strings_Split (s : string) (sep : ascii) : list string :=
  match s with
  | EmptyString => [EmptyString]
  | String c s' =>
      if Ascii.eqb c sep then EmptyString :: strings_Split s' sep
      else match strings_Split s' sep with
           | h :: t => String c h :: t
           | [] => [String c EmptyString]
           end
  end.

(** ** Generic counted loop: [for i := lo; i < lo+n; i++ { s = body i s }] *)

Fixpoint for_loop {S : Type} (n : nat) (i : nat) (body : nat -> S -> S) (s : S) : S :=
  match n with
  | O => s
  | Datatypes.S n' => for_loop n' (Datatypes.S i) body (body i s)
  end.

(** ** Images (package image, image/color)

    [color_RGBA] is Go's [color.RGBA]; [image_RGBA] is an [image.RGBA] with
    bounds [(0,0)-(Dx,Dy)], its [Pix] slice grouped into one [color_RGBA] per
    pixel, row-major (stride = width). *)

Record color_RGBA : Type := mkRGBA { R : Z; G : Z; B : Z; A : Z }.

Definition color_zero : color_RGBA := mkRGBA 0 0 0 0.

Record image_RGBA : Type := mkImage {
  Pix : list color_RGBA;
  Dx : nat;
  Dy : nat
}.

(** [color.RGBA.RGBA()]: each 8-bit channel widened to 16 bits, [v | v<<8]. *)
Definition widen16 (v : Z) : Z := Z.lor v (Z.shiftl v 8).

Definition RGBA (c : color_RGBA) : Z * Z * Z * Z :=
  (widen16 (R c), widen16 (G c), widen16 (B c), widen16 (A c)).

Definition PixOffset (img : image_RGBA) (x y : nat) : nat := (y * Dx img + x)%nat.

Definition in_bounds (img : image_RGBA) (x y : nat) : bool :=
  (x <? Dx img)%nat && (y <? Dy img)%nat.

(** [image.RGBA.At]: the zero colour outside the bounds. *)
Definition At (img : image_RGBA) (x y : nat) : color_RGBA :=
  if in_bounds img x y then default color_zero (Pix img !! PixOffset img x y)
  else color_zero.

(** [image.RGBA.SetRGBA]: no effect outside the bounds. *)
Definition SetRGBA (img : image_RGBA) (x y : nat) (c : color_RGBA) : image_RGBA :=
  if in_bounds img x y
  then mkImage (<[PixOffset img x y := c]> (Pix img)) (Dx img) (Dy img)
  else img.

(** [image.NewRGBA(image.Rect(0, 0, b.Dx(), b.Dy()))] followed by
    [draw.Draw(rgbaImg, rgbaImg.Bounds(), img, b.Min, draw.Src)]: a fresh
    buffer of [Dx*Dy] pixels holding a copy of the source pixels. *)
Definition toRGBA (img : image_RGBA) : image_RGBA :=
  mkImage
    (for_loop (Dy img) 0 (fun y pix =>
       for_loop (Dx img) 0 (fun x pix => pix ++ [At img x y]) pix) [])
    (Dx img) (Dy img).

(** ** StegoCodec: the pixel loops of hideMessage and revealMessage *)

(** Body of the inner loop of [hideMessage] (lines 732-741). *)
Definition hide_step (message : string) (y x : nat) (st : image_RGBA * nat)
  : image_RGBA * nat :=
  let '(rgbaImg, messageIndex) := st in
  if (messageIndex <? String.length message)%nat then
    let m := str_index message messageIndex in
    let '(r, g, b, a) := RGBA (At rgbaImg x y) in
    let r := Z.lor (Z.ldiff r 1) (Z.shiftr m 7) in
    let g := Z.lor (Z.ldiff g 1) (Z.land (Z.shiftr m 6) 1) in
    let b := Z.lor (Z.ldiff b 1) (Z.land (Z.shiftr m 5) 1) in
    let a := Z.lor (Z.ldiff a 1) (Z.land (Z.shiftr m 4) 1) in
    (SetRGBA rgbaImg x y (mkRGBA (uint8 r) (uint8 g) (uint8 b) (uint8 a)),
     Datatypes.S messageIndex)
  else st.

(** Lines 725-743 of [hideMessage]: terminate the message and run the two
    nested loops over the RGBA buffer. *)
Definition hide (rgbaImg : image_RGBA) (message : string) : image_RGBA :=
  let width := Dx rgbaImg in
  let height := Dy rgbaImg in
  let message := (message ++ String NUL EmptyString)%string in
  fst (for_loop height 0 (fun y st =>
         for_loop width 0 (fun x st => hide_step message y x st) st)
         (rgbaImg, O)).

(** The byte written for one pixel by [revealMessage] (line 780). *)
Definition reveal_byte (c : color_RGBA) : Z :=
  let '(r, g, b, a) := RGBA c in
  uint8 (Z.lor (Z.lor (Z.lor (Z.shiftl (Z.land r 1) 7) (Z.shiftl (Z.land g 1) 6))
                      (Z.shiftl (Z.land b 1) 5))
               (Z.shiftl (Z.land a 1) 4)).

(** Lines 773-783 of [revealMessage]: the contents of [messageBits]. *)
Definition reveal_bytes (rgbaImg : image_RGBA) : list Z :=
  let width := Dx rgbaImg in
  let height := Dy rgbaImg in
  for_loop height 0 (fun y messageBits =>
    for_loop width 0 (fun x messageBits =>
      messageBits ++ [reveal_byte (At rgbaImg x y)]) messageBits) [].

(** Lines 773-786 of [revealMessage]. *)
Definition reveal (rgbaImg : image_RGBA) : string :=
  let message := string_of_bytes (reveal_bytes rgbaImg) in
  match strings_Split message NUL with
  | message :: _ => message
  | [] => EmptyString
  end.

(** A pixel buffer as [image.NewRGBA] allocates it: [Dx*Dy] pixels, every
    channel a [uint8]. *)
Definition is_uint8 (v : Z) : bool := (0 <=? v) && (v <? 256).

Definition color_ok (c : color_RGBA) : bool :=
  is_uint8 (R c) && is_uint8 (G c) && is_uint8 (B c) && is_uint8 (A c).

Definition image_ok (img : image_RGBA) : bool :=
  (length (Pix img) =? Dx img * Dy img)%nat && forallb color_ok (Pix img).

(** The [i]-th pixel in row-major order. *)
Definition pixel (img : image_RGBA) (i : nat) : option color_RGBA := Pix img !! i.

(** [new] is [old] with its least significant bit replaced by [b]: bit 0 is
    [b], every other bit is as in [old]. *)
Definition lsb_replaced (old new : Z) (b : bool) : Prop :=
  Z.testbit new 0 = b /\ forall j, 0 < j -> Z.testbit new j = Z.testbit old j.

(** *** The reveal algorithm as the specification words it

    One byte per pixel, [(R_lsb<<7)|(G_lsb<<6)|(B_lsb<<5)|(A_lsb<<4)], the
    bytes of the whole image concatenated and cut at the first NUL. *)
Definition lsb (v : Z) : Z := v mod 2.

Definition spec_reveal_byte (c : color_RGBA) : Z :=
  Z.lor (Z.lor (Z.lor (Z.shiftl (lsb (R c)) 7) (Z.shiftl (lsb (G c)) 6))
               (Z.shiftl (lsb (B c)) 5))
        (Z.shiftl (lsb (A c)) 4).

Fixpoint truncate_at_NUL (l : list Z) : list Z :=
  match l with
  | [] => []
  | b :: l' => if b =? 0 then [] else b :: truncate_at_NUL l'
  end.

Definition spec_reveal (img : image_RGBA) : list Z :=
  truncate_at_NUL (map spec_reveal_byte (Pix img)).

(** The colour [hide_step] stores for message byte [m] over the colour [c]
    read from the buffer. *)
Definition embed (m : Z) (c : color_RGBA) : color_RGBA :=
  let '(r, g, b, a) := RGBA c in
  let r := Z.lor (Z.ldiff r 1) (Z.shiftr m 7) in
  let g := Z.lor (Z.ldiff g 1) (Z.land (Z.shiftr m 6) 1) in
  let b := Z.lor (Z.ldiff b 1) (Z.land (Z.shiftr m 5) 1) in
  let a := Z.lor (Z.ldiff a 1) (Z.land (Z.shiftr m 4) 1) in
  mkRGBA (uint8 r) (uint8 g) (uint8 b) (uint8 a).

(** Invariant of the loops of [hide] after [k] pixels: the first
    [min k len(message)] pixels carry their message byte, the others are as
    in the input, and [messageIndex] is [min k len(message)]. *)
Definition hide_inv (img : image_RGBA) (message : string) (k : nat)
    (st : image_RGBA * nat) : Prop :=
  Dx (fst st) = Dx img /\ Dy (fst st) = Dy img /\
  length (Pix (fst st)) = length (Pix img) /\
  snd st = Nat.min k (String.length message) /\
  forall i : nat,
    Pix (fst st) !! i =
    if (i <? Nat.min k (String.length message))%nat
    then embed (str_index message i) <$> (Pix img !! i)
    else Pix img !! i.

(** ** CipherEngine: Encrypt and Decrypt

    [cipher.AEAD] as obtained from [cipher.NewGCM(aes.NewCipher(key))]. The
    key is a parameter of the operations; [gcm_Seal key dst nonce plaintext ad]
    is [aesGCM.Seal(dst, nonce, plaintext, ad)] and
    [gcm_Open key nonce ciphertext ad] is [aesGCM.Open(nil, nonce, ciphertext, ad)]. *)

Class AEAD : Type := {
  gcm_Seal : list Z -> list Z -> list Z -> list Z -> list Z -> list Z;
  gcm_Open : list Z -> list Z -> list Z -> list Z -> option (list Z)
}.

Definition NonceSize : nat := 12.  (* aesGCM.NonceSize() *)
Definition TagSize : nat := 16.    (* aesGCM.Overhead() *)

(** [aes.NewCipher]: a [KeySizeError] unless the key has 16, 24 or 32 bytes. *)
Definition aes_key_ok (key : list Z) : bool :=
  let n := length key in
  (n =? 16)%nat || (n =? 24)%nat || (n =? 32)%nat.

Definition aes_NewCipher (key : list Z) : result (list Z) :=
  if aes_key_ok key then Ok key else Err ErrCreateCipher.

(** [cipher.NewGCM] fails only for a block size other than 16 bytes, which an
    AES block never has. *)
Definition cipher_NewGCM (block : list Z) : result (list Z) := Ok block.

(** The documented behaviour of the GCM implementation: [Seal] appends to
    [dst] the ciphertext, as long as the plaintext, and a 16-byte tag; [Open]
    inverts [Seal] under the same key, nonce and additional data, and rejects
    an input shorter than the tag. *)
Class AEAD_laws (aead : AEAD) : Prop := {
  Seal_appends : forall key dst nonce plaintext ad,
    gcm_Seal key dst nonce plaintext ad = dst ++ gcm_Seal key [] nonce plaintext ad;
  Seal_length : forall key nonce plaintext ad,
    length (gcm_Seal key [] nonce plaintext ad) = (length plaintext + TagSize)%nat;
  Open_Seal : forall key nonce plaintext ad,
    aes_key_ok key = true -> length nonce = NonceSize ->
    gcm_Open key nonce (gcm_Seal key [] nonce plaintext ad) ad = Some plaintext;
  Open_short : forall key nonce ciphertext ad,
    (length ciphertext < TagSize)%nat -> gcm_Open key nonce ciphertext ad = None
}.

(** [io.ReadFull(rand.Reader, buf)] with [len(buf) = n]: [rnd] is what the
    reader can deliver; fewer than [n] bytes is an error. *)
Definition io_ReadFull (rnd : list Z) (n : nat) : result (list Z) :=
  if (n <=? length rnd)%nat then Ok (take n rnd) else Err ErrCreateNonce.

Section CipherEngine.
Context {aead : AEAD}.

(** [Encrypt]; [rnd] is the output of [rand.Reader] during the call. *)
Definition Encrypt (rnd : list Z) (key plaintext : list Z) : result (list Z) :=
  match aes_NewCipher key with
  | Err _ => Err ErrCreateCipher
  | Ok block =>
      match cipher_NewGCM block with
      | Err _ => Err ErrCreateGCM
      | Ok aesGCM =>
          match io_ReadFull rnd NonceSize with
          | Err _ => Err ErrCreateNonce
          | Ok nonce =>
              let ciphertext := gcm_Seal aesGCM nonce nonce plaintext [] in
              Ok ciphertext
          end
      end
  end.

Definition Decrypt (key ciphertext : list Z) : result (list Z) :=
  match aes_NewCipher key with
  | Err _ => Err ErrCreateCipher
  | Ok block =>
      match cipher_NewGCM block with
      | Err _ => Err ErrCreateGCM
      | Ok aesGCM =>
          let nonceSize := NonceSize in
          if (length ciphertext <? nonceSize)%nat then Err ErrCiphertextTooShort
          else
            let nonce := take nonceSize ciphertext in
            let ciphertext := drop nonceSize ciphertext in
            match gcm_Open aesGCM nonce ciphertext [] with
            | None => Err ErrOpenGCM
            | Some plaintext => Ok plaintext
            end
      end
  end.
End CipherEngine.

(** ** The outside world

    The file system is a finite map from file names to contents; a run of a
    command is a state transformer over it that may fail ([M]). What the
    program cannot decide by itself (image codecs, permission and I/O
    failures, path arithmetic, randomness) is an oracle of [Env]. *)

Abbreviation FS := (gmap string (list Z)).

Definition M (A : Type) : Type := FS -> result A * FS.

Definition ret {A} (a : A) : M A := fun fs => (Ok a, fs).
Definition fail {A} (e : error) : M A := fun fs => (Err e, fs).
Definition bind {A B} (m : M A) (k : A -> M B) : M B :=
  fun fs => match m fs with
            | (Ok a, fs') => k a fs'
            | (Err e, fs') => (Err e, fs')
            end.
Definition lift {A} (r : result A) : M A := fun fs => (r, fs).
Definition check (o : option error) : M unit :=
  fun fs => match o with None => (Ok tt, fs) | Some e => (Err e, fs) end.

Notation "'do' x <- c ; k" := (bind c (fun x => k))
  (at level 10, x name, c at level 100, k at level 200).

Record Env : Type := {
  os_read_err : string -> option error;      (* os.Open / ReadFile failing on an existing file *)
  os_write_err : string -> option error;     (* os.Create / WriteFile failing *)
  os_MkdirAll : string -> option error;
  image_Decode : list Z -> result (image_RGBA * string);
  image_DecodeConfig : list Z -> result string;
  png_Encode : image_RGBA -> result (list Z);
  png_Decode : list Z -> result image_RGBA;
  jpeg_Encode : image_RGBA -> Z -> result (list Z);
  filepath_Dir : string -> string;
  filepath_Rel : string -> string -> result string;
  rand_Reader : string -> list Z             (* randomness read while encrypting the named file *)
}.

(** [strings.ToLower] on ASCII letters. *)
Definition lower_ascii (c : ascii) : ascii :=
  let n := nat_of_ascii c in
  if ((65 <=? n) && (n <=? 90))%nat then ascii_of_nat (n + 32) else c.

Fixpoint strings_ToLower (s : string) : string :=
  match s with
  | EmptyString => EmptyString
  | String c s' => String (lower_ascii c) (strings_ToLower s')
  end.

Definition strings_HasSuffix (s suffix : string) : bool :=
  (String.length suffix <=? String.length s)%nat &&
  String.eqb (substring (String.length s - String.length suffix)
                        (String.length suffix) s) suffix.

Definition strings_TrimSuffix (s suffix : string) : string :=
  if strings_HasSuffix s suffix
  then substring 0 (String.length s - String.length suffix) s
  else s.

(** [filepath.Join] of a directory and a name (no cleaning of the result). *)
Definition filepath_Join (dir name : string) : string :=
  (dir ++ "/" ++ name)%string.

Section Files.
Context (env : Env) {aead : AEAD}.

(** [os.Open] followed by reading the file. *)
Definition os_Open (filename : string) : M (list Z) :=
  fun fs => match fs !! filename with
            | None => (Err ErrReadFile, fs)
            | Some data =>
                match os_read_err env filename with
                | Some e => (Err e, fs)
                | None => (Ok data, fs)
                end
            end.

(** [os.Stat(name)] returning no error. *)
Definition os_Stat_ok (filename : string) : M bool :=
  fun fs => (Ok (bool_decide (is_Some (fs !! filename))), fs).

(** [os.Create]: the file exists and is empty afterwards. *)
Definition os_Create (filename : string) : M unit :=
  fun fs => match os_write_err env filename with
            | Some e => (Err e, fs)
            | None => (Ok tt, <[filename := []]> fs)
            end.

Definition file_Write (filename : string) (data : list Z) : M unit :=
  fun fs => (Ok tt, <[filename := data]> fs).

Definition ioutil_WriteFile (filename : string) (data : list Z) : M unit :=
  fun fs => match os_write_err env filename with
            | Some e => (Err e, fs)
            | None => (Ok tt, <[filename := data]> fs)
            end.

(** Replace the error of a library call by the wrapping [fmt.Errorf]. *)
Definition wrap {A} (m : M A) (e : error) : M A :=
  fun fs => match m fs with
            | (Ok a, fs') => (Ok a, fs')
            | (Err _, fs') => (Err e, fs')
            end.

Definition LoadImage (filename : string) : M image_RGBA :=
  do f <- wrap (os_Open filename) ErrOpenImage;
  do d <- wrap (lift (image_Decode env f)) ErrDecodeImage;
  ret (fst d).

Definition SaveImage (filename : string) (img : image_RGBA) (outputFormat : string)
  : M unit :=
  do _ <- wrap (os_Create filename) ErrCreateImageFile;
  let fmt := strings_ToLower outputFormat in
  if String.eqb fmt "jpg" || String.eqb fmt "jpeg" then
    do data <- wrap (lift (jpeg_Encode env img 90)) ErrEncodeJPEG;
    file_Write filename data
  else
    do data <- wrap (lift (png_Encode env img)) ErrEncodePNG;
    file_Write filename data.

Definition ImageToBytes (img : image_RGBA) : M (list Z) :=
  wrap (lift (png_Encode env img)) ErrEncodeImage.

Definition BytesToImage (data : list Z) : M image_RGBA :=
  wrap (lift (png_Decode env data)) ErrDecodeBytes.

Definition isImageFile (filename : string) (fs : FS) : bool :=
  match os_Open filename fs with
  | (Err _, _) => false
  | (Ok f, _) =>
      match image_DecodeConfig env f with
      | Err _ => false
      | Ok format =>
          let supportedFormats := ["jpeg"; "jpg"; "png"; "gif"; "bmp"; "tiff"]%string in
          existsb (fun supportedFormat =>
                     String.eqb (strings_ToLower format) supportedFormat)
                  supportedFormats
      end
  end.

(** *** Steganography commands *)

Definition hideMessage (inputFilename outputFilename message outputFormat : string)
  : M unit :=
  do img <- LoadImage inputFilename;
  let rgbaImg := toRGBA img in
  let rgbaImg := hide rgbaImg message in
  do _ <- check (os_MkdirAll env (filepath_Dir env outputFilename));
  do _ <- SaveImage outputFilename rgbaImg outputFormat;
  ret tt.

Definition revealMessage (inputFilename : string) : M string :=
  do img <- LoadImage inputFilename;
  let rgbaImg := toRGBA img in
  ret (reveal rgbaImg).

(** The action of [stego hide]: the length cap, then [hideMessage]. *)
Definition stegoHideAction (inputPath outputPath message outputFormat : string)
  : M unit :=
  if (StegoMessageLimit <? String.length message)%nat then fail ErrMessageTooLong
  else hideMessage inputPath outputPath message outputFormat.

(** *** Single-file encryption and decryption *)

Definition encryptFile (inputFilename outputFilename : string) (key : list Z)
    (overwrite : bool) : M unit :=
  do exists_ <- os_Stat_ok outputFilename;
  if exists_ && negb overwrite then ret tt
  else
    do img <- LoadImage inputFilename;
    do imgBytes <- ImageToBytes img;
    do ciphertext <- lift (Encrypt (rand_Reader env inputFilename) key imgBytes);
    do _ <- check (os_MkdirAll env (filepath_Dir env outputFilename));
    do _ <- ioutil_WriteFile outputFilename ciphertext;
    ret tt.

Definition decryptFile (inputFilename outputFilename : string) (key : list Z)
    (overwrite : bool) (outputFormat : string) : M unit :=
  do exists_ <- os_Stat_ok outputFilename;
  if exists_ && negb overwrite then ret tt
  else
    do ciphertext <- os_Open inputFilename;
    do plaintext <- lift (Decrypt key ciphertext);
    do img <- BytesToImage plaintext;
    do _ <- check (os_MkdirAll env (filepath_Dir env outputFilename));
    do _ <- SaveImage outputFilename img outputFormat;
    ret tt.
End Files.

(** ** BatchRunner: filepath.Walk and the directory commands *)

(** What [filepath.Walk] finds under a path: a regular file, a directory
    (whose listing may fail with an error) or an entry that [os.Lstat]
    cannot examine. *)
#[local] Unset Elimination Schemes.
Inductive node : Type :=
| File (name : string)
| Dir (name : string) (readdir_err : option error) (children : list node)
| Unstatable (name : string) (e : error).
#[local] Set Elimination Schemes.

Definition node_name (n : node) : string :=
  match n with
  | File name => name
  | Dir name _ _ => name
  | Unstatable name _ => name
  end.

(** [os.FileInfo], as far as the callbacks look at it. *)
Record FileInfo : Type := mkInfo { Name : string; IsDir : bool }.

Definition node_info (n : node) : FileInfo :=
  match n with
  | File name => mkInfo name false
  | Dir name _ _ => mkInfo name true
  | Unstatable name _ => mkInfo name false
  end.

(** What a [filepath.WalkFunc] returns besides [nil]. *)
Inductive signal : Type :=
| SkipDir
| Abort (e : error).

Definition WalkFunc (S : Type) : Type :=
  string -> FileInfo -> option error -> S -> S * option signal.

(** The loop of [filepath.walk] over the names of a directory; [walk] is the
    recursive call. An entry that cannot be examined is reported to the
    callback, and the loop goes on unless the callback returns an error. *)
Definition walk_names {S : Type} (walkFn : WalkFunc S)
    (walk : string -> node -> S -> S * option signal) (path : string)
  : list node -> S -> S * option signal :=
  fix loop (names : list node) (st : S) : S * option signal :=
    match names with
    | [] => (st, None)
    | c :: rest =>
        let filename := filepath_Join path (node_name c) in
        match c with
        | Unstatable _ e =>
            let '(st', r) := walkFn filename (node_info c) (Some e) st in
            match r with
            | Some (Abort _) => (st', r)
            | _ => loop rest st'
            end
        | _ =>
            let '(st', r) := walk filename c st in
            match r with
            | None => loop rest st'
            | Some SkipDir =>
                if IsDir (node_info c) then loop rest st' else (st', r)
            | Some (Abort _) => (st', r)
            end
        end
    end.

(** [filepath.walk]. *)
Fixpoint walk {S : Type} (walkFn : WalkFunc S) (path : string) (n : node) (st : S)
  : S * option signal :=
  match n with
  | File _ => walkFn path (node_info n) None st
  | Unstatable _ e => walkFn path (node_info n) (Some e) st
  | Dir _ err children =>
      let '(st1, err1) := walkFn path (node_info n) err st in
      match err, err1 with
      | None, None => walk_names walkFn (walk walkFn) path children st1
      | _, _ => (st1, err1)
      end
  end.

(** [filepath.Walk]: [SkipDir] from the root is not an error. *)
Definition filepath_Walk {S : Type} (root : string) (tree : node) (walkFn : WalkFunc S)
    (st : S) : S * option error :=
  match walk walkFn root tree st with
  | (st', Some (Abort e)) => (st', Some e)
  | (st', _) => (st', None)
  end.

(** A goroutine started by a directory command: its two arguments. *)
Definition task : Type := (string * string)%type.

Section Directories.
Context (env : Env) {aead : AEAD}.

(** The callback of [encryptDirectory]; the state is the list of
    goroutines started so far ([wg.Add(1); go func(p, o)]). *)
Definition encrypt_walkFn (fs : FS) (inputDir outputDir : string) (recursive : bool)
  : WalkFunc (list task) :=
  fun path info err spawned =>
    match err with
    | Some e => (spawned, Some (Abort e))
    | None =>
        if IsDir info && negb (String.eqb path inputDir) && negb recursive
        then (spawned, Some SkipDir)
        else if negb (IsDir info) then
          if isImageFile env path fs then
            match filepath_Rel env inputDir path with
            | Err e => (spawned, Some (Abort e))
            | Ok relPath =>
                let outputFilename :=
                  filepath_Join outputDir (relPath ++ EncryptedExtension)%string in
                (spawned ++ [(path, outputFilename)], None)
            end
          else (spawned, None)
        else (spawned, None)
    end.

Definition decrypt_walkFn (inputDir outputDir : string) (recursive : bool)
    (encryptedExt : string) : WalkFunc (list task) :=
  fun path info err spawned =>
    match err with
    | Some e => (spawned, Some (Abort e))
    | None =>
        if IsDir info && negb (String.eqb path inputDir) && negb recursive
        then (spawned, Some SkipDir)
        else if negb (IsDir info) && strings_HasSuffix (Name info) encryptedExt then
          match filepath_Rel env inputDir path with
          | Err e => (spawned, Some (Abort e))
          | Ok relPath =>
              let outputFilename :=
                filepath_Join outputDir (strings_TrimSuffix relPath encryptedExt) in
              (spawned ++ [(path, outputFilename)], None)
          end
        else (spawned, None)
    end.

(** The outcome of one goroutine: its arguments and the error of the
    per-file function, which the goroutine logs and drops. *)
Definition outcome : Type := (task * option error)%type.

(** [wg.Wait()]: every started goroutine runs to completion. They are run
    here one after the other, in the order in which they were started. *)
Fixpoint run_tasks (body : string -> string -> M unit) (spawned : list task) (fs : FS)
  : list outcome * FS :=
  match spawned with
  | [] => ([], fs)
  | (p, o) :: rest =>
      let '(r, fs') := body p o fs in
      let err := match r with Ok _ => None | Err e => Some e end in
      let '(outs, fs'') := run_tasks body rest fs' in
      ((p, o, err) :: outs, fs'')
  end.

Definition encryptDirectory (tree : node) (inputDir outputDir : string) (key : list Z)
    (recursive overwrite : bool) (fs : FS) : option error * list outcome * FS :=
  let '(spawned, err) :=
    filepath_Walk inputDir tree (encrypt_walkFn fs inputDir outputDir recursive) [] in
  let '(outs, fs') :=
    run_tasks (fun p o => encryptFile env p o key overwrite) spawned fs in
  (err, outs, fs').

Definition decryptDirectory (tree : node) (inputDir outputDir : string) (key : list Z)
    (recursive : bool) (encryptedExt : string) (overwrite : bool)
    (outputFormat : string) (fs : FS) : option error * list outcome * FS :=
  let '(spawned, err) :=
    filepath_Walk inputDir tree
      (decrypt_walkFn inputDir outputDir recursive encryptedExt) [] in
  let '(outs, fs') :=
    run_tasks (fun p o => decryptFile env p o key overwrite outputFormat) spawned fs in
  (err, outs, fs').
End Directories.

(** The relative path [filepath.Rel] computes for [p] (empty if it fails). *)
Definition rel_of (env : Env) (inputDir p : string) : string :=
  match filepath_Rel env inputDir p with
  | Ok rel => rel
  | Err _ => EmptyString
  end.

(** *** Enumeration as the specification words it

    [readable]: nothing under the root fails to list or to stat.
    [files_under]: the regular files the selector accepts, directly under
    the root, and below it only when [recursive]; [top] marks the root. *)
Fixpoint readable (n : node) : bool :=
  match n with
  | File _ => true
  | Dir _ None children => forallb readable children
  | Dir _ (Some _) _ => false
  | Unstatable _ _ => false
  end.

Fixpoint files_under (sel : string -> FileInfo -> bool) (recursive top : bool)
    (path : string) (n : node) : list string :=
  match n with
  | File _ => if sel path (node_info n) then [path] else []
  | Dir _ _ children =>
      if top || recursive
      then flat_map (fun c =>
             files_under sel recursive false (filepath_Join path (node_name c)) c)
             children
      else []
  | Unstatable _ _ => []
  end.

(** Induction on [node] with the hypothesis available for all children. *)
Fixpoint node_ind_nested (P : node -> Prop)
    (HFile : forall name, P (File name))
    (HDir : forall name err children,
        Forall P children -> P (Dir name err children))
    (HUnstatable : forall name e, P (Unstatable name e))
    (n : node) : P n :=
  match n with
  | File name => HFile name
  | Dir name err children =>
      HDir name err children
        ((fix all (l : list node) : Forall P l :=
            match l with
            | [] => @List.Forall_nil node P
            | c :: l' =>
                @List.Forall_cons node P c l'
                  (node_ind_nested P HFile HDir HUnstatable c) (all l')
            end) children)
  | Unstatable name e => HUnstatable name e
  end.

(** *** Scheduling of the goroutines

    The walk runs in the main goroutine and starts a goroutine at each
    qualifying file ([to_spawn] are those it has yet to reach); a started
    goroutine is in flight until it returns. [wg.Wait()] returns when
    nothing is left to start and nothing is in flight. *)
Record sched : Type := mkSched {
  to_spawn : list task;
  in_flight : list task;
  finished : list task
}.

Inductive step : sched -> sched -> Prop :=
| step_spawn (t : task) (rest fl dn : list task) :
    step (mkSched (t :: rest) fl dn) (mkSched rest (fl ++ [t]) dn)
| step_finish (ts fl1 fl2 dn : list task) (t : task) :
    step (mkSched ts (fl1 ++ t :: fl2) dn) (mkSched ts (fl1 ++ fl2) (dn ++ [t])).

(** The states a run that starts the goroutines [spawned] can be in. *)
Definition reachable (spawned : list task) (s : sched) : Prop :=
  rtc step (mkSched spawned [] []) s.

(** The goroutines started by the two directory commands. *)
Definition encrypt_spawned (env : Env) (fs : FS) (tree : node)
    (inputDir outputDir : string) (recursive : bool) : list task :=
  fst (filepath_Walk inputDir tree (encrypt_walkFn env fs inputDir outputDir recursive) []).

Definition decrypt_spawned (env : Env) (tree : node)
    (inputDir outputDir : string) (recursive : bool) (encryptedExt : string) : list task :=
  fst (filepath_Walk inputDir tree
         (decrypt_walkFn env inputDir outputDir recursive encryptedExt) []).

(** ** Concrete inputs used in examples

    A small lossless codec standing for the image library (width, height,
    then four bytes per pixel), an environment in which nothing fails, and
    a few pixel buffers. *)
Module Demo.
Fixpoint pixels_of_bytes (l : list Z) : list color_RGBA :=
  match l with
  | r :: g :: b :: a :: l' => mkRGBA r g b a :: pixels_of_bytes l'
  | _ => []
  end.

Definition bytes_of_pixel (c : color_RGBA) : list Z := [R c; G c; B c; A c].

Definition encode (img : image_RGBA) : result (list Z) :=
  Ok (Z.of_nat (Dx img) :: Z.of_nat (Dy img) :: flat_map bytes_of_pixel (Pix img)).

Definition decode (data : list Z) : result image_RGBA :=
  match data with
  | w :: h :: rest => Ok (mkImage (pixels_of_bytes rest) (Z.to_nat w) (Z.to_nat h))
  | _ => Err ErrDecodeImage
  end.

Definition env : Env := {|
  os_read_err := fun _ => None;
  os_write_err := fun _ => None;
  os_MkdirAll := fun _ => None;
  image_Decode := fun data =>
    match decode data with Ok img => Ok (img, "png"%string) | Err e => Err e end;
  image_DecodeConfig := fun data =>
    match decode data with Ok _ => Ok "png"%string | Err e => Err e end;
  png_Encode := encode;
  png_Decode := decode;
  jpeg_Encode := fun img _ => encode img;
  filepath_Dir := fun _ => "."%string;
  filepath_Rel := fun base targ =>
    Ok (substring (String.length base + 1)
                  (String.length targ - (String.length base + 1)) targ);
  rand_Reader := fun _ => repeat 7 12
|}.

(** A toy AEAD with the shape of a stream cipher with a tag: the
    plaintext is xor-ed with a byte derived from key and nonce, and a
    16-byte checksum of key, nonce and ciphertext is appended. *)
Definition pad (key nonce : list Z) : Z :=
  (foldr Z.add 0 key + foldr Z.add 0 nonce) mod 256.

Definition xor_with (k : Z) (l : list Z) : list Z := map (fun b => Z.lxor b k) l.

Definition tag (key nonce ct ad : list Z) : list Z :=
  repeat ((pad key nonce + foldr Z.add 0 ct + foldr Z.add 0 ad) mod 256) TagSize.

Definition seal (key dst nonce plaintext ad : list Z) : list Z :=
  let ct := xor_with (pad key nonce) plaintext in
  dst ++ ct ++ tag key nonce ct ad.

Definition open (key nonce ciphertext ad : list Z) : option (list Z) :=
  if (length ciphertext <? TagSize)%nat then None
  else
    let n := (length ciphertext - TagSize)%nat in
    let ct := take n ciphertext in
    if bool_decide (drop n ciphertext = tag key nonce ct ad)
    then Some (xor_with (pad key nonce) ct)
    else None.

Definition aead : AEAD := {| gcm_Seal := seal; gcm_Open := open |}.

Definition key0 : list Z := repeat 0 32.
Definition nonce0 : list Z := repeat 7 12.

(** A directory [in] holding [n] files [.enc], [a.enc], [aa.enc], ... *)
Fixpoint a_string (k : nat) : string :=
  match k with
  | O => EmptyString
  | Datatypes.S k' => String "a" (a_string k')
  end.

Definition enc_name (k : nat) : string := (a_string k ++ ".enc")%string.

Definition flat_dir (n : nat) : node :=
  Dir "in" None (map (fun k => File (enc_name k)) (seq 0 n)).

(** A directory with two images and a text file, its contents, and an
    environment in which writing [out/a.png.enc] fails. *)
Definition photos : node :=
  Dir "in" None [File "a.png"; File "b.png"; File "c.txt"].

Definition photos_fs : FS :=
  <["in/a.png"%string := [1; 1; 255; 255; 255; 255]]>
    (<["in/b.png"%string := [1; 1; 0; 0; 0; 255]]>
       {[ "in/c.txt"%string := [104] ]}).

Definition env_write_fails : Env := {|
  os_read_err := os_read_err env;
  os_write_err := fun f =>
    if String.eqb f "out/a.png.enc" then Some ErrWriteFile else None;
  os_MkdirAll := os_MkdirAll env;
  image_Decode := image_Decode env;
  image_DecodeConfig := image_DecodeConfig env;
  png_Encode := png_Encode env;
  png_Decode := png_Decode env;
  jpeg_Encode := jpeg_Encode env;
  filepath_Dir := filepath_Dir env;
  filepath_Rel := filepath_Rel env;
  rand_Reader := rand_Reader env
|}.

(** A 2x1 buffer and a 1x1 buffer. *)
Definition img2x1 : image_RGBA :=
  mkImage [mkRGBA 255 254 7 255; mkRGBA 1 1 1 1] 2 1.

Definition img1x1 : image_RGBA := mkImage [mkRGBA 255 255 255 255] 1 1.

(** A file system holding the 1x1 image as [in.png]. *)
Definition fs : FS := {[ "in.png"%string := [1; 1; 255; 255; 255; 255] ]}.
End Demo.

(** ** Further functions of main.go *)

(** [GenerateRandomKey]: [KeySize] bytes from [rand.Read]; [rnd] is what the
    random source can deliver, [None] is the "failed to generate key" error. *)
Definition GenerateRandomKey (rnd : list Z) : option (list Z) :=
  if (KeySize <=? length rnd)%nat then Some (take KeySize rnd) else None.

(** [SaveImageDefault]: always PNG. *)
Definition SaveImageDefault (env : Env) (filename : string) (img : image_RGBA) : M unit :=
  do _ <- wrap (os_Create env filename) ErrCreateImageFile;
  do data <- wrap (lift (png_Encode env img)) ErrEncodePNG;
  file_Write filename data.

(** The byte [reveal] gives back for a hidden byte [b]: its upper four bits. *)
Definition high_nibble (b : Z) : Z := Z.land b 240.

(** [m] changes no file other than [filename]. *)
Definition touches_only {A : Type} (m : M A) (filename : string) : Prop :=
  forall (fs : FS) (f : string), f <> filename -> snd (m fs) !! f = fs !! f.

(** [m] reads the file system without changing it. *)
Definition read_only {A : Type} (m : M A) : Prop :=
  forall fs : FS, snd (m fs) = fs.

(** Further concrete inputs: an environment whose PNG encoder fails, and a
    directory whose second entry cannot be listed. *)
Module DemoMore.
Definition env_encode_fails : Env := {|
  os_read_err := os_read_err Demo.env;
  os_write_err := os_write_err Demo.env;
  os_MkdirAll := os_MkdirAll Demo.env;
  image_Decode := image_Decode Demo.env;
  image_DecodeConfig := image_DecodeConfig Demo.env;
  png_Encode := fun _ => Err ErrEncodePNG;
  png_Decode := png_Decode Demo.env;
  jpeg_Encode := jpeg_Encode Demo.env;
  filepath_Dir := filepath_Dir Demo.env;
  filepath_Rel := filepath_Rel Demo.env;
  rand_Reader := rand_Reader Demo.env
|}.

Definition locked : node :=
  Dir "in" None
    [File "a.png"; Dir "private" (Some ErrReadDir) []; File "b.png"].
End DemoMore.

(** The error with which an entry fails to be walked: it cannot be
    examined, or it is a directory that cannot be listed. *)
Definition entry_error (n : node) : option error :=
  match n with
  | Unstatable _ e => Some e
  | Dir _ (Some e) _ => Some e
  | _ => None
  end.

(** *** Batch processing as the specification words it

    [error_of]: the outcome recorded for a per-file call. [processed]: every
    item is handed to the per-file function in turn, on the file system its
    predecessors left; whatever the call returns is recorded against that
    item, and the run goes on with the next one. *)
Definition error_of {A : Type} (r : result A) : option error :=
  match r with
  | Ok _ => None
  | Err e => Some e
  end.

Inductive processed (body : string -> string -> M unit)
  : list task -> FS -> list outcome -> FS -> Prop :=
| processed_nil (fs : FS) : processed body [] fs [] fs
| processed_cons (p o : string) (rest : list task) (fs fs1 fs2 : FS)
    (r : result unit) (outs : list outcome) :
    body p o fs = (r, fs1) ->
    processed body rest fs1 outs fs2 ->
    processed body ((p, o) :: rest) fs ((p, o, error_of r) :: outs) fs2.

(** No two items write the same file, and none writes a file that an item
    reads. *)
Definition independent (tasks : list task) : Prop :=
  NoDup (map snd tasks) /\
  forall t t' : task, t ∈ tasks -> t' ∈ tasks -> snd t' <> fst t.

(** The result of [body p o], and what it leaves in [o], depend on the file
    system only through the files [p] and [o]. *)
Definition local_to_files (body : string -> string -> M unit) : Prop :=
  forall (p o : string) (fs1 fs2 : FS),
    fs1 !! p = fs2 !! p -> fs1 !! o = fs2 !! o ->
    fst (body p o fs1) = fst (body p o fs2) /\
    snd (body p o fs1) !! o = snd (body p o fs2) !! o.

(** The goroutine arguments the two directory commands compute for a path. *)
Definition encrypt_task (env : Env) (inputDir outputDir p : string) : task :=
  (p, filepath_Join outputDir (rel_of env inputDir p ++ EncryptedExtension)%string).

Definition decrypt_task (env : Env) (inputDir outputDir encryptedExt p : string) : task :=
  (p, filepath_Join outputDir (strings_TrimSuffix (rel_of env inputDir p) encryptedExt)).

(** * Proofs *)

(** ** Counted loops *)

Section Loops.
Local Open Scope nat_scope.
Context {S : Type}.

(** Invariant rule for a counted loop. *)
Lemma for_loop_inv (P : nat -> S -> Prop) (body : nat -> S -> S) :
  forall n i s,
    P i s ->
    (forall j t, i <= j < i + n -> P j t -> P (Datatypes.S j) (body j t)) ->
    P (i + n) (for_loop n i body s).
Proof.
  induction n as [|n IH]; intros i s Hi Hstep; simpl.
  - now rewrite Nat.add_0_r.
  - replace (i + Datatypes.S n) with (Datatypes.S i + n) by lia.
    apply IH.
    + apply Hstep; [lia | exact Hi].
    + intros j t Hj. apply Hstep. lia.
Qed.

(** Invariant rule for the row-major double loop
    [for y < h { for x < w { s = body y x s } }]: the invariant is indexed
    by the number [y*w + x] of pixels already visited. *)
Lemma grid_loop_inv (P : nat -> S -> Prop) (body : nat -> nat -> S -> S) :
  forall w h s,
    P 0 s ->
    (forall x y t, x < w -> y < h ->
       P (y * w + x) t -> P (Datatypes.S (y * w + x)) (body y x t)) ->
    P (h * w)
      (for_loop h 0 (fun y t => for_loop w 0 (fun x t => body y x t) t) s).
Proof.
  intros w h s H0 Hstep.
  change (h * w) with ((fun y => y * w) h).
  pose (Q := fun y t => P (y * w) t).
  change (Q (0 + h) (for_loop h 0 (fun y t => for_loop w 0 (fun x t => body y x t) t) s)).
  apply for_loop_inv; [exact H0 |].
  intros y t Hy HQ. unfold Q in *.
  replace (Datatypes.S y * w) with (y * w + (0 + w)) by lia.
  pose (Q' := fun x t => P (y * w + x) t).
  change (Q' (0 + w) (for_loop w 0 (fun x t => body y x t) t)).
  apply for_loop_inv.
  - unfold Q'. now rewrite Nat.add_0_r.
  - intros x u Hx HQ'. unfold Q' in *.
    replace (y * w + Datatypes.S x) with (Datatypes.S (y * w + x)) by lia.
    apply Hstep; [lia | lia | exact HQ'].
Qed.
End Loops.

(** ** Bytes and bits *)

Lemma forall_uint8 (P : Z -> bool) :
  forallb P (map Z.of_nat (seq 0 256)) = true ->
  forall v, is_uint8 v = true -> P v = true.
Proof.
  intros Hall v Hv. unfold is_uint8 in Hv.
  apply andb_true_iff in Hv as [H0 H1].
  apply Z.leb_le in H0. apply Z.ltb_lt in H1.
  rewrite forallb_forall in Hall. apply Hall.
  apply in_map_iff. exists (Z.to_nat v). split; [lia |].
  apply in_seq. lia.
Qed.

Lemma is_uint8_range v : is_uint8 v = true <-> 0 <= v < 256.
Proof.
  unfold is_uint8. rewrite andb_true_iff, Z.leb_le, Z.ltb_lt. tauto.
Qed.

Lemma byte_of_ascii_uint8 c : is_uint8 (byte_of_ascii c) = true.
Proof.
  apply is_uint8_range. unfold byte_of_ascii.
  pose proof (N_ascii_bounded c). lia.
Qed.

Lemma str_index_uint8 s i : is_uint8 (str_index s i) = true.
Proof.
  unfold str_index. destruct (String.get i s); [apply byte_of_ascii_uint8 | reflexivity].
Qed.

Lemma ascii_of_byte_of_ascii c : ascii_of_byte (byte_of_ascii c) = c.
Proof.
  unfold ascii_of_byte, byte_of_ascii. rewrite N2Z.id. apply ascii_N_embedding.
Qed.

Lemma byte_of_ascii_of_byte v :
  is_uint8 v = true -> byte_of_ascii (ascii_of_byte v) = v.
Proof.
  intros Hv. apply is_uint8_range in Hv.
  unfold ascii_of_byte, byte_of_ascii.
  rewrite N_ascii_embedding by lia. lia.
Qed.

Lemma ascii_of_byte_NUL v :
  is_uint8 v = true -> Ascii.eqb (ascii_of_byte v) NUL = (v =? 0).
Proof.
  intros Hv. destruct (Z.eqb_spec v 0) as [-> | Hne].
  - reflexivity.
  - apply Ascii.eqb_neq. intros Heq.
    apply (f_equal byte_of_ascii) in Heq.
    rewrite byte_of_ascii_of_byte in Heq by exact Hv.
    apply Hne. exact Heq.
Qed.

Lemma lsb_replaced_intro old b :
  lsb_replaced old (2 * (old / 2) + Z.b2z b) b.
Proof.
  split.
  - apply Z.testbit_0_r.
  - intros j Hj. replace j with (Z.succ (j - 1)) by lia.
    rewrite Z.testbit_succ_r by lia.
    rewrite <- Z.div2_div, Z.div2_spec, Z.shiftr_spec by lia.
    f_equal.
Qed.

(** The four channel updates of [hide_step], on bytes: the channel keeps its
    upper bits and takes the message bit as its lowest bit. Checked on all
    256 x 256 byte pairs. *)
Lemma embed_channels v m :
  is_uint8 v = true -> is_uint8 m = true ->
  uint8 (Z.lor (Z.ldiff (widen16 v) 1) (Z.shiftr m 7))
    = 2 * (v / 2) + Z.b2z (Z.testbit m 7) /\
  uint8 (Z.lor (Z.ldiff (widen16 v) 1) (Z.land (Z.shiftr m 6) 1))
    = 2 * (v / 2) + Z.b2z (Z.testbit m 6) /\
  uint8 (Z.lor (Z.ldiff (widen16 v) 1) (Z.land (Z.shiftr m 5) 1))
    = 2 * (v / 2) + Z.b2z (Z.testbit m 5) /\
  uint8 (Z.lor (Z.ldiff (widen16 v) 1) (Z.land (Z.shiftr m 4) 1))
    = 2 * (v / 2) + Z.b2z (Z.testbit m 4).
Proof.
  intros Hv Hm.
  pose (chk := fun v m =>
    (uint8 (Z.lor (Z.ldiff (widen16 v) 1) (Z.shiftr m 7))
       =? 2 * (v / 2) + Z.b2z (Z.testbit m 7)) &&
    (uint8 (Z.lor (Z.ldiff (widen16 v) 1) (Z.land (Z.shiftr m 6) 1))
       =? 2 * (v / 2) + Z.b2z (Z.testbit m 6)) &&
    (uint8 (Z.lor (Z.ldiff (widen16 v) 1) (Z.land (Z.shiftr m 5) 1))
       =? 2 * (v / 2) + Z.b2z (Z.testbit m 5)) &&
    (uint8 (Z.lor (Z.ldiff (widen16 v) 1) (Z.land (Z.shiftr m 4) 1))
       =? 2 * (v / 2) + Z.b2z (Z.testbit m 4))).
  assert (Hall : chk v m = true).
  { apply (forall_uint8 (fun v => forallb (chk v) (map Z.of_nat (seq 0 256))))
      in Hv; [| vm_compute; reflexivity].
    apply (forall_uint8 (chk v)); assumption. }
  unfold chk in Hall.
  repeat (apply andb_true_iff in Hall as [Hall ?]).
  repeat split; apply Z.eqb_eq; assumption.
Qed.

(** Split [color_ok c = true] into its four channel facts. *)
Ltac split_color_ok H :=
  unfold color_ok in H;
  let Hr := fresh "Hr" in
  let Hg := fresh "Hg" in
  let Hb := fresh "Hb" in
  let Ha := fresh "Ha" in
  apply andb_true_iff in H as [H Ha];
  apply andb_true_iff in H as [H Hb];
  apply andb_true_iff in H as [Hr Hg].

Lemma embed_lsb m c :
  is_uint8 m = true -> color_ok c = true ->
  lsb_replaced (R c) (R (embed m c)) (Z.testbit m 7) /\
  lsb_replaced (G c) (G (embed m c)) (Z.testbit m 6) /\
  lsb_replaced (B c) (B (embed m c)) (Z.testbit m 5) /\
  lsb_replaced (A c) (A (embed m c)) (Z.testbit m 4).
Proof.
  intros Hm Hc. split_color_ok Hc.
  destruct c as [r g b a]; unfold embed, RGBA; cbn [R G B A] in *.
  destruct (embed_channels r m) as (-> & _); [assumption .. |].
  destruct (embed_channels g m) as (_ & -> & _); [assumption .. |].
  destruct (embed_channels b m) as (_ & _ & -> & _); [assumption .. |].
  destruct (embed_channels a m) as (_ & _ & _ & ->); [assumption .. |].
  repeat split; apply lsb_replaced_intro.
Qed.

(** ** The loops of hide *)

Lemma grid_index_lt (x y w h : nat) :
  (x < w)%nat -> (y < h)%nat -> (y * w + x < w * h)%nat.
Proof. intros Hx Hy. nia. Qed.

(** The pixel [At] reads at [(x, y)] is the one at row-major index
    [y*Dx + x]. *)
Lemma At_pixel img x y :
  length (Pix img) = (Dx img * Dy img)%nat ->
  (x < Dx img)%nat -> (y < Dy img)%nat ->
  pixel img (y * Dx img + x) = Some (At img x y).
Proof.
  intros Hlen Hx Hy. unfold pixel, At, in_bounds, PixOffset.
  destruct (Nat.ltb_spec x (Dx img)); [| lia].
  destruct (Nat.ltb_spec y (Dy img)); [| lia].
  pose proof (grid_index_lt x y _ _ Hx Hy) as Hk.
  destruct (lookup_lt_is_Some_2 (Pix img) (y * Dx img + x)) as [c Hc]; [lia |].
  cbn [andb]. rewrite Hc. reflexivity.
Qed.

Lemma hide_step_eq message y x im mi :
  hide_step message y x (im, mi) =
  if (mi <? String.length message)%nat
  then (SetRGBA im x y (embed (str_index message mi) (At im x y)), Datatypes.S mi)
  else (im, mi).
Proof. reflexivity. Qed.

Lemma hide_step_inv img message x y st :
  length (Pix img) = (Dx img * Dy img)%nat ->
  (x < Dx img)%nat -> (y < Dy img)%nat ->
  hide_inv img message (y * Dx img + x) st ->
  hide_inv img message (Datatypes.S (y * Dx img + x)) (hide_step message y x st).
Proof.
  intros Hlen Hx Hy. destruct st as [im mi].
  intros (HDx & HDy & Hl & Hmi & Hpix); cbn [fst snd] in *.
  pose proof (grid_index_lt x y _ _ Hx Hy) as Hk.
  set (k := (y * Dx img + x)%nat) in *.
  rewrite hide_step_eq.
  destruct (Nat.ltb_spec mi (String.length message)) as [Hlt | Hge].
  - assert (Hmk : mi = k) by lia.
    assert (Hin : in_bounds im x y = true).
    { unfold in_bounds. rewrite HDx, HDy.
      apply andb_true_iff; split; apply Nat.ltb_lt; assumption. }
    assert (Hat : Pix img !! k = Some (At im x y)).
    { unfold At, PixOffset. rewrite Hin, HDx. fold k.
      rewrite Hpix.
      destruct (Nat.ltb_spec k (Nat.min k (String.length message))); [lia |].
      destruct (lookup_lt_is_Some_2 (Pix img) k) as [c Hc]; [lia |].
      rewrite Hc. reflexivity. }
    unfold SetRGBA, PixOffset. rewrite Hin, HDx. fold k.
    unfold hide_inv; cbn [fst snd Pix Dx Dy].
    repeat split; try assumption.
    + rewrite length_insert. exact Hl.
    + lia.
    + intros i. destruct (decide (i = k)) as [-> | Hne].
      * rewrite list_lookup_insert_eq by lia.
        destruct (Nat.ltb_spec k (Nat.min (Datatypes.S k) (String.length message)));
          [| lia].
        rewrite Hat, Hmk. reflexivity.
      * rewrite list_lookup_insert_ne by congruence.
        rewrite Hpix.
        destruct (Nat.ltb_spec i (Nat.min k (String.length message)));
          destruct (Nat.ltb_spec i (Nat.min (Datatypes.S k) (String.length message)));
          try reflexivity; lia.
  - unfold hide_inv; cbn [fst snd].
    repeat split; try assumption.
    + lia.
    + intros i. rewrite Hpix.
      destruct (Nat.ltb_spec i (Nat.min k (String.length message)));
        destruct (Nat.ltb_spec i (Nat.min (Datatypes.S k) (String.length message)));
        try reflexivity; lia.
Qed.

Lemma hide_loops_inv img message :
  length (Pix img) = (Dx img * Dy img)%nat ->
  hide_inv img message (Dy img * Dx img)
    (for_loop (Dy img) 0 (fun y st =>
       for_loop (Dx img) 0 (fun x st => hide_step message y x st) st) (img, O)).
Proof.
  intros Hlen.
  apply (grid_loop_inv (hide_inv img message) (hide_step message)).
  - repeat split; reflexivity.
  - intros x y st Hx Hy. apply hide_step_inv; assumption.
Qed.

Lemma string_length_append (s1 s2 : string) :
  String.length (s1 ++ s2) = (String.length s1 + String.length s2)%nat.
Proof. induction s1 as [|c s1 IH]; simpl; [reflexivity | now rewrite IH]. Qed.

(** What [hide] returns on a well-sized buffer, pixel by pixel. *)
Lemma hide_spec img message :
  length (Pix img) = (Dx img * Dy img)%nat ->
  Dx (hide img message) = Dx img /\
  Dy (hide img message) = Dy img /\
  length (Pix (hide img message)) = length (Pix img) /\
  forall i : nat,
    Pix (hide img message) !! i =
    if (i <? Nat.min (Dx img * Dy img) (String.length message + 1))%nat
    then embed (str_index (message ++ String NUL EmptyString) i) <$> (Pix img !! i)
    else Pix img !! i.
Proof.
  intros Hlen.
  destruct (hide_loops_inv img (message ++ String NUL EmptyString) Hlen)
    as (HDx & HDy & Hl & _ & Hpix).
  unfold hide. repeat split; try assumption.
  intros i. rewrite Hpix, string_length_append. simpl String.length.
  now rewrite (Nat.mul_comm (Dy img)).
Qed.

(** ** The loops of reveal *)

Lemma reveal_bytes_eq img :
  length (Pix img) = (Dx img * Dy img)%nat ->
  reveal_bytes img = map reveal_byte (Pix img).
Proof.
  intros Hlen. unfold reveal_bytes.
  pose (P := fun (k : nat) (buf : list Z) => buf = map reveal_byte (take k (Pix img))).
  assert (HP : P (Dy img * Dx img)%nat
    (for_loop (Dy img) 0 (fun y messageBits =>
       for_loop (Dx img) 0 (fun x messageBits =>
         messageBits ++ [reveal_byte (At img x y)]) messageBits) [])).
  { apply (grid_loop_inv P (fun y x buf => buf ++ [reveal_byte (At img x y)])).
    - reflexivity.
    - intros x y buf Hx Hy ->. unfold P.
      pose proof (grid_index_lt x y _ _ Hx Hy) as Hk.
      destruct (lookup_lt_is_Some_2 (Pix img) (y * Dx img + x)) as [c Hc]; [lia |].
      rewrite (take_S_r _ _ _ Hc), map_app. simpl. do 3 f_equal.
      unfold At, in_bounds, PixOffset.
      destruct (Nat.ltb_spec x (Dx img)); [| lia].
      destruct (Nat.ltb_spec y (Dy img)); [| lia].
      simpl. now rewrite Hc. }
  unfold P in HP. rewrite HP, take_ge by lia. reflexivity.
Qed.

(** Without any assumption on the buffer, every byte written is the byte of
    some colour. *)
Lemma reveal_bytes_Forall img :
  Forall (fun b => exists c, b = reveal_byte c) (reveal_bytes img).
Proof.
  unfold reveal_bytes.
  pose (P := fun (k : nat) (buf : list Z) =>
               Forall (fun b => exists c, b = reveal_byte c) buf).
  change (P (Dy img * Dx img)%nat
    (for_loop (Dy img) 0 (fun y messageBits =>
       for_loop (Dx img) 0 (fun x messageBits =>
         messageBits ++ [reveal_byte (At img x y)]) messageBits) [])).
  apply (grid_loop_inv P (fun y x buf => buf ++ [reveal_byte (At img x y)])).
  - constructor.
  - intros x y buf _ _ HP. unfold P in *.
    apply Forall_app; split; [exact HP |].
    constructor; [eauto | constructor].
Qed.

Lemma lsb_widen16 v : Z.land (widen16 v) 1 = lsb v.
Proof.
  unfold widen16, lsb.
  change 1 with (Z.ones 1) at 1. rewrite Z.land_ones by lia.
  change (2 ^ 1) with 2.
  rewrite <- !Z.bit0_mod, Z.lor_spec, Z.shiftl_spec_low by lia.
  now rewrite orb_false_r.
Qed.

Lemma lsb_cases v : lsb v = 0 \/ lsb v = 1.
Proof. unfold lsb. pose proof (Z.mod_pos_bound v 2). lia. Qed.

Lemma reveal_byte_spec c : reveal_byte c = spec_reveal_byte c.
Proof.
  unfold reveal_byte, spec_reveal_byte, RGBA.
  rewrite !lsb_widen16.
  destruct (lsb_cases (R c)) as [-> | ->], (lsb_cases (G c)) as [-> | ->],
           (lsb_cases (B c)) as [-> | ->], (lsb_cases (A c)) as [-> | ->];
    reflexivity.
Qed.

(** The decoded byte is a byte whose low four bits are zero. *)
Lemma spec_reveal_byte_high c :
  is_uint8 (spec_reveal_byte c) = true /\ spec_reveal_byte c mod 16 = 0.
Proof.
  unfold spec_reveal_byte.
  destruct (lsb_cases (R c)) as [-> | ->], (lsb_cases (G c)) as [-> | ->],
           (lsb_cases (B c)) as [-> | ->], (lsb_cases (A c)) as [-> | ->];
    split; reflexivity.
Qed.

(** ** Cutting at the first NUL *)

Lemma Split_first_truncate (l : list Z) :
  Forall (fun b => is_uint8 b = true) l ->
  match strings_Split (string_of_bytes l) NUL with
  | message :: _ => message
  | [] => EmptyString
  end = string_of_bytes (truncate_at_NUL l).
Proof.
  induction 1 as [| b l Hb _ IH]; simpl; [reflexivity |].
  rewrite (ascii_of_byte_NUL b Hb).
  destruct (b =? 0); [reflexivity |].
  destruct (strings_Split (string_of_bytes l) NUL) as [| h t]; simpl.
  - now rewrite <- IH.
  - now rewrite IH.
Qed.

Lemma truncate_no_NUL (l : list Z) :
  Forall (fun b => b <> 0) l -> truncate_at_NUL l = l.
Proof.
  induction 1 as [| b l Hb _ IH]; simpl; [reflexivity |].
  destruct (Z.eqb_spec b 0); [contradiction | now rewrite IH].
Qed.

Lemma truncate_Forall (P : Z -> Prop) (l : list Z) :
  Forall P l -> Forall (fun b => P b /\ b <> 0) (truncate_at_NUL l).
Proof.
  induction 1 as [| b l Hb _ IH]; simpl; [constructor |].
  destruct (Z.eqb_spec b 0); constructor; auto.
Qed.

Lemma bytes_of_string_of_bytes (l : list Z) :
  Forall (fun b => is_uint8 b = true) l -> bytes_of_string (string_of_bytes l) = l.
Proof.
  induction 1 as [| b l Hb _ IH]; simpl; [reflexivity |].
  now rewrite byte_of_ascii_of_byte, IH.
Qed.

Lemma reveal_eq img :
  reveal img = string_of_bytes (truncate_at_NUL (reveal_bytes img)).
Proof.
  unfold reveal. apply Split_first_truncate.
  eapply Forall_impl; [apply reveal_bytes_Forall |].
  intros b [c ->]. rewrite reveal_byte_spec. apply spec_reveal_byte_high.
Qed.

(** ** Conversion to RGBA *)

Lemma toRGBA_length img :
  length (Pix (toRGBA img)) = (Dx img * Dy img)%nat.
Proof.
  unfold toRGBA; cbn [Pix].
  pose (P := fun (k : nat) (pix : list color_RGBA) => length pix = k).
  rewrite (Nat.mul_comm (Dx img)).
  change (P (Dy img * Dx img)%nat
    (for_loop (Dy img) 0 (fun y pix =>
       for_loop (Dx img) 0 (fun x pix => pix ++ [At img x y]) pix) [])).
  apply (grid_loop_inv P (fun y x pix => pix ++ [At img x y])).
  - reflexivity.
  - intros x y pix _ _ HP. unfold P in *. rewrite length_app, HP. simpl. lia.
Qed.

(** ** Stego: the claims *)

(** C4. In a well-formed buffer, for every index [i < len(M)+1] of the
    NUL-terminated message at which the buffer has a pixel, [hide] replaces
    the least significant bits of R, G, B, A of the [i]-th pixel (row-major)
    by bits 7, 6, 5, 4 of message byte [i], changing no other bit of these
    channels; every pixel at an index [>= len(M)+1] is left as it was. The
    dimensions are unchanged. *)
Theorem hide_sets_low_bits (img : image_RGBA) (message : string) :
  image_ok img = true ->
  Dx (hide img message) = Dx img /\
  Dy (hide img message) = Dy img /\
  (forall (i : nat) (c : color_RGBA),
     (i < String.length message + 1)%nat -> pixel img i = Some c ->
     exists c', pixel (hide img message) i = Some c' /\
       let m := str_index (message ++ String NUL EmptyString) i in
       lsb_replaced (R c) (R c') (Z.testbit m 7) /\
       lsb_replaced (G c) (G c') (Z.testbit m 6) /\
       lsb_replaced (B c) (B c') (Z.testbit m 5) /\
       lsb_replaced (A c) (A c') (Z.testbit m 4)) /\
  (forall i : nat,
     (String.length message + 1 <= i)%nat ->
     pixel (hide img message) i = pixel img i).
Proof.
  intros Hok. unfold image_ok in Hok.
  apply andb_true_iff in Hok as [Hlen Hcol]. apply Nat.eqb_eq in Hlen.
  destruct (hide_spec img message Hlen) as (HDx & HDy & _ & Hpix).
  split; [exact HDx |]. split; [exact HDy |]. unfold pixel. split.
  - intros i c Hi Hc. rewrite Hpix.
    pose proof (lookup_lt_Some _ _ _ Hc) as Hlt.
    destruct (Nat.ltb_spec i (Nat.min (Dx img * Dy img) (String.length message + 1)));
      [| lia].
    rewrite Hc. simpl. eexists; split; [reflexivity |].
    apply embed_lsb; [apply str_index_uint8 |].
    rewrite forallb_forall in Hcol. apply Hcol.
    apply list_elem_of_In. eapply list_elem_of_lookup_2. exact Hc.
  - intros i Hi. rewrite Hpix.
    destruct (Nat.ltb_spec i (Nat.min (Dx img * Dy img) (String.length message + 1)));
      [lia | reflexivity].
Qed.

Lemma hide_sets_low_bits_witness :
  image_ok Demo.img2x1 = true /\
  (forall i : nat,
     (String.length "A" + 1 <= i)%nat ->
     pixel (hide Demo.img2x1 "A") i = pixel Demo.img2x1 i).
Proof.
  split; [reflexivity |].
  exact (proj2 (proj2 (proj2 (hide_sets_low_bits Demo.img2x1 "A" eq_refl)))).
Defined.

Lemma revealMessage_eq env inputFilename fs src fs' :
  LoadImage env inputFilename fs = (Ok src, fs') ->
  revealMessage env inputFilename fs = (Ok (reveal (toRGBA src)), fs').
Proof.
  intros HL. unfold revealMessage, bind. rewrite HL. reflexivity.
Qed.

(** C5. On a buffer of [Dx*Dy] pixels, [reveal] decodes one byte per pixel in
    row-major order, [(R_lsb<<7)|(G_lsb<<6)|(B_lsb<<5)|(A_lsb<<4)], over the
    whole image and returns the bytes before the first NUL; when no decoded
    byte is NUL it returns all of them. [revealMessage] returns this string
    for the converted image, without error, whenever the image loads. *)
Theorem reveal_refines_spec (img : image_RGBA) :
  length (Pix img) = (Dx img * Dy img)%nat ->
  reveal_bytes img = map spec_reveal_byte (Pix img) /\
  reveal img = string_of_bytes (spec_reveal img) /\
  (Forall (fun b => b <> 0) (map spec_reveal_byte (Pix img)) ->
   reveal img = string_of_bytes (map spec_reveal_byte (Pix img))) /\
  (forall env inputFilename fs fs',
     LoadImage env inputFilename fs = (Ok img, fs') ->
     revealMessage env inputFilename fs
       = (Ok (string_of_bytes (spec_reveal (toRGBA img))), fs')).
Proof.
  intros Hlen.
  assert (Hb : forall im, length (Pix im) = (Dx im * Dy im)%nat ->
                 reveal_bytes im = map spec_reveal_byte (Pix im)).
  { intros im Him. rewrite (reveal_bytes_eq im Him).
    apply map_ext. intros c. apply reveal_byte_spec. }
  assert (Hr : forall im, length (Pix im) = (Dx im * Dy im)%nat ->
                 reveal im = string_of_bytes (spec_reveal im)).
  { intros im Him. rewrite reveal_eq, (Hb im Him). reflexivity. }
  split; [apply Hb; exact Hlen |].
  split; [apply Hr; exact Hlen |].
  split.
  - intros Hnz. rewrite (Hr img Hlen). unfold spec_reveal.
    now rewrite truncate_no_NUL.
  - intros env inputFilename fs fs' HL.
    rewrite (revealMessage_eq _ _ _ _ _ HL).
    rewrite (Hr (toRGBA img)); [reflexivity |].
    exact (toRGBA_length img).
Qed.

Lemma reveal_refines_spec_witness :
  length (Pix Demo.img2x1) = (Dx Demo.img2x1 * Dy Demo.img2x1)%nat /\
  reveal Demo.img2x1 = string_of_bytes (spec_reveal Demo.img2x1).
Proof.
  split; [reflexivity |].
  exact (proj1 (proj2 (reveal_refines_spec Demo.img2x1 eq_refl))).
Defined.

(** C10. For every image, every byte of the string returned by [reveal] has
    its low four bits zero (it is a multiple of 16) and is not NUL. *)
Theorem reveal_bytes_high_nibble (img : image_RGBA) :
  Forall (fun b => b mod 16 = 0 /\ Z.land b 15 = 0 /\ b <> 0)
         (bytes_of_string (reveal img)).
Proof.
  rewrite reveal_eq.
  assert (Hall : Forall (fun b => is_uint8 b = true /\ b mod 16 = 0) (reveal_bytes img)).
  { eapply Forall_impl; [apply reveal_bytes_Forall |].
    intros b [c ->]. rewrite reveal_byte_spec. apply spec_reveal_byte_high. }
  apply truncate_Forall in Hall.
  rewrite bytes_of_string_of_bytes.
  - eapply Forall_impl; [exact Hall |].
    intros b [[Hu Hm] Hnz]. split; [exact Hm |]. split; [| exact Hnz].
    change 15 with (Z.ones 4). rewrite Z.land_ones by lia. exact Hm.
  - eapply Forall_impl; [exact Hall |]. intros b [[Hu _] _]. exact Hu.
Qed.

(** *** What the round trip returns

    Revealing after hiding gives the message with the low four bits of every
    byte cleared, cut at the first byte that becomes NUL. *)

Lemma lsb_set v b : lsb (2 * (v / 2) + Z.b2z b) = Z.b2z b.
Proof.
  unfold lsb. rewrite Z.add_comm, Z.mul_comm, Z.mod_add by lia.
  destruct b; reflexivity.
Qed.

Lemma reveal_embed m c :
  is_uint8 m = true -> color_ok c = true ->
  reveal_byte (embed m c) = Z.land m 240.
Proof.
  intros Hm Hc. rewrite reveal_byte_spec. split_color_ok Hc.
  destruct c as [r g b a]; unfold spec_reveal_byte, embed, RGBA; cbn [R G B A] in *.
  destruct (embed_channels r m) as (-> & _); [assumption .. |].
  destruct (embed_channels g m) as (_ & -> & _); [assumption .. |].
  destruct (embed_channels b m) as (_ & _ & -> & _); [assumption .. |].
  destruct (embed_channels a m) as (_ & _ & _ & ->); [assumption .. |].
  rewrite !lsb_set.
  apply Z.eqb_eq.
  apply (forall_uint8 (fun m =>
    Z.lor (Z.lor (Z.lor (Z.shiftl (Z.b2z (Z.testbit m 7)) 7)
                        (Z.shiftl (Z.b2z (Z.testbit m 6)) 6))
                 (Z.shiftl (Z.b2z (Z.testbit m 5)) 5))
          (Z.shiftl (Z.b2z (Z.testbit m 4)) 4) =? Z.land m 240));
    [vm_compute; reflexivity | exact Hm].
Qed.

Lemma truncate_at_NUL_app (l1 l2 : list Z) :
  truncate_at_NUL (l1 ++ 0 :: l2) = truncate_at_NUL l1.
Proof.
  induction l1 as [| b l1 IH]; cbn; [reflexivity |].
  destruct (b =? 0); [reflexivity | now rewrite IH].
Qed.

Lemma bytes_of_string_lookup (s : string) (i : nat) :
  (i < String.length s)%nat -> bytes_of_string s !! i = Some (str_index s i).
Proof.
  revert i. induction s as [| c s IH]; intros i Hi; cbn in Hi; [lia |].
  destruct i as [| i]; [reflexivity |].
  cbn. unfold str_index. cbn. apply IH. lia.
Qed.

Lemma str_index_terminated (s : string) (i : nat) :
  str_index (s ++ String NUL EmptyString) i =
  if (i <? String.length s)%nat then str_index s i else 0.
Proof.
  revert i. induction s as [| c s IH]; intros i.
  - destruct i as [| i]; [reflexivity |]. cbn. unfold str_index. cbn.
    destruct i; reflexivity.
  - destruct i as [| i]; [reflexivity |].
    specialize (IH i). unfold str_index in *. cbn. exact IH.
Qed.

Lemma reveal_hide (img : image_RGBA) (message : string) :
  image_ok img = true ->
  (String.length message + 1 <= Dx img * Dy img)%nat ->
  reveal (hide img message)
  = string_of_bytes
      (truncate_at_NUL (map (fun b => Z.land b 240) (bytes_of_string message))).
Proof.
  intros Hok Hcap. unfold image_ok in Hok.
  apply andb_true_iff in Hok as [Hlen Hcol]. apply Nat.eqb_eq in Hlen.
  destruct (hide_spec img message Hlen) as (HDx & HDy & Hl & Hpix).
  rewrite reveal_eq, reveal_bytes_eq by (rewrite HDx, HDy, Hl; exact Hlen).
  f_equal.
  set (n := String.length message) in *.
  set (L := map reveal_byte (Pix (hide img message))).
  assert (HL : L = map (fun b => Z.land b 240) (bytes_of_string message)
                   ++ 0 :: drop (Datatypes.S n) L).
  { assert (Hbl : length (bytes_of_string message) = n).
    { subst n. clear. induction message; cbn; [reflexivity | now f_equal]. }
    apply list_eq. intros i.
    destruct (Nat.lt_ge_cases i (Datatypes.S n)) as [Hi | Hi].
    - unfold L. rewrite list_lookup_fmap, Hpix.
      destruct (Nat.ltb_spec i (Nat.min (Dx img * Dy img) (n + 1))); [| lia].
      destruct (lookup_lt_is_Some_2 (Pix img) i) as [c Hc]; [lia |].
      rewrite Hc. cbn [fmap option_fmap option_map].
      rewrite reveal_embed.
      2: apply str_index_uint8.
      2: { rewrite forallb_forall in Hcol. apply Hcol.
           apply list_elem_of_In. eapply list_elem_of_lookup_2. exact Hc. }
      rewrite str_index_terminated. fold n.
      destruct (Nat.ltb_spec i n) as [Hin | Hin].
      + rewrite lookup_app_l by (rewrite length_map; lia).
        rewrite list_lookup_fmap, bytes_of_string_lookup by (fold n; lia).
        reflexivity.
      + assert (i = n) by lia. subst i.
        rewrite lookup_app_r by (rewrite length_map; lia).
        rewrite length_map, Hbl, Nat.sub_diag. reflexivity.
    - rewrite lookup_app_r by (rewrite length_map; lia).
      rewrite length_map, Hbl.
      replace (i - n)%nat with (Datatypes.S (i - Datatypes.S n)) by lia.
      change ((0 :: drop (Datatypes.S n) L) !! Datatypes.S (i - Datatypes.S n))
        with (drop (Datatypes.S n) L !! (i - Datatypes.S n)%nat).
      rewrite lookup_drop. f_equal. lia. }
  rewrite HL. apply truncate_at_NUL_app.
Qed.

(** C1. The round trip fails: hiding ["A"] (0x41) in a 2x1 buffer, which has
    room for the message and its terminator, and revealing the result gives
    ["@"] (0x40), not ["A"]: only bits 7..4 of a byte are stored. *)
Theorem reveal_hide_A :
  image_ok Demo.img2x1 = true /\
  (String.length "A" <= StegoMessageLimit)%nat /\
  (String.length "A" + 1 <= Dx Demo.img2x1 * Dy Demo.img2x1)%nat /\
  reveal (hide Demo.img2x1 "A") = "@"%string /\
  reveal (hide Demo.img2x1 "A") <> "A"%string.
Proof.
  split; [reflexivity |].
  split; [vm_compute; lia |].
  split; [vm_compute; lia |].
  assert (H : reveal (hide Demo.img2x1 "A") = "@"%string) by (vm_compute; reflexivity).
  split; [exact H |]. rewrite H. discriminate.
Qed.

Lemma SaveImage_written env filename img outputFormat fs fs' :
  SaveImage env filename img outputFormat fs = (Ok tt, fs') ->
  is_Some (fs' !! filename).
Proof.
  unfold SaveImage, bind, wrap, os_Create, lift, file_Write.
  destruct (os_write_err env filename); [discriminate |].
  destruct (String.eqb (strings_ToLower outputFormat) "jpg"
            || String.eqb (strings_ToLower outputFormat) "jpeg").
  - destruct (jpeg_Encode env img 90); [| discriminate].
    intros [= <-]. rewrite lookup_insert_eq. eauto.
  - destruct (png_Encode env img); [| discriminate].
    intros [= <-]. rewrite lookup_insert_eq. eauto.
Qed.

(** C2, as the claim states it, fails: hiding ["A"] in a 1x1 image
    (1 pixel for 2 bytes) returns no error and writes the output file. *)
Lemma hide_over_capacity_succeeds :
  LoadImage Demo.env "in.png" Demo.fs = (Ok Demo.img1x1, Demo.fs) /\
  (Dx Demo.img1x1 * Dy Demo.img1x1 < String.length "A" + 1)%nat /\
  fst (hideMessage Demo.env "in.png" "out.png" "A" "png" Demo.fs) = Ok tt /\
  snd (hideMessage Demo.env "in.png" "out.png" "A" "png" Demo.fs) !! "out.png"%string
    = Some [1; 1; 254; 255; 254; 254].
Proof.
  split; [vm_compute; reflexivity |].
  split; [vm_compute; lia |].
  split; vm_compute; reflexivity.
Qed.

(** C2, amended. [hideMessage] has no capacity check. When the image has
    fewer than [len(M)+1] pixels, every pixel of the converted buffer
    receives the message byte of its row-major index (the first
    [width*height] bytes of the NUL-terminated message; the rest is dropped),
    and the command succeeds and writes the output file whenever creating the
    directory and saving the image succeed. *)
Theorem hide_over_capacity (env : Env) (inputFilename outputFilename message
    outputFormat : string) (fs fs1 fs2 : FS) (src : image_RGBA) :
  LoadImage env inputFilename fs = (Ok src, fs1) ->
  (Dx src * Dy src < String.length message + 1)%nat ->
  os_MkdirAll env (filepath_Dir env outputFilename) = None ->
  SaveImage env outputFilename (hide (toRGBA src) message) outputFormat fs1
    = (Ok tt, fs2) ->
  hideMessage env inputFilename outputFilename message outputFormat fs = (Ok tt, fs2) /\
  is_Some (fs2 !! outputFilename) /\
  forall (i : nat) (c : color_RGBA),
    pixel (toRGBA src) i = Some c ->
    pixel (hide (toRGBA src) message) i
      = Some (embed (str_index (message ++ String NUL EmptyString) i) c).
Proof.
  intros HL Hcap Hmk Hsave. split; [| split].
  - unfold hideMessage, bind at 1. rewrite HL.
    unfold bind at 1, check. rewrite Hmk.
    unfold bind. rewrite Hsave. reflexivity.
  - eapply SaveImage_written. exact Hsave.
  - intros i c Hc. unfold pixel in *.
    pose proof (toRGBA_length src) as Hlen.
    destruct (hide_spec (toRGBA src) message Hlen) as (_ & _ & _ & Hpix).
    rewrite Hpix, Hc.
    pose proof (lookup_lt_Some _ _ _ Hc) as Hlt. rewrite Hlen in Hlt.
    change (Dx (toRGBA src)) with (Dx src). change (Dy (toRGBA src)) with (Dy src).
    destruct (Nat.ltb_spec i (Nat.min (Dx src * Dy src) (String.length message + 1)));
      [reflexivity | lia].
Qed.

Lemma hide_over_capacity_witness :
  hideMessage Demo.env "in.png" "out.png" "A" "png" Demo.fs
    = (Ok tt, <["out.png"%string := [1; 1; 254; 255; 254; 254]]> Demo.fs) /\
  is_Some ((<["out.png"%string := [1; 1; 254; 255; 254; 254]]> Demo.fs)
             !! "out.png"%string).
Proof.
  pose proof (hide_over_capacity Demo.env "in.png" "out.png" "A" "png"
                Demo.fs Demo.fs
                (<["out.png"%string := [1; 1; 254; 255; 254; 254]]> Demo.fs)
                Demo.img1x1) as H.
  destruct H as (H1 & H2 & _).
  - vm_compute; reflexivity.
  - vm_compute; lia.
  - reflexivity.
  - vm_compute; reflexivity.
  - split; assumption.
Defined.

(** ** CipherEngine: the claims *)

Lemma toy_aead_laws : AEAD_laws Demo.aead.
Proof.
  split; simpl; unfold Demo.seal, Demo.open.
  - reflexivity.
  - intros key nonce plaintext ad. simpl.
    rewrite length_app. unfold Demo.xor_with, Demo.tag.
    now rewrite length_map, repeat_length.
  - intros key nonce plaintext ad _ _. simpl.
    set (ct := Demo.xor_with (Demo.pad key nonce) plaintext).
    assert (Hlt : length (Demo.tag key nonce ct ad) = TagSize)
      by (unfold Demo.tag; apply repeat_length).
    rewrite length_app, Hlt.
    destruct (Nat.ltb_spec (length ct + TagSize) TagSize); [lia |].
    replace (length ct + TagSize - TagSize)%nat with (length ct) by lia.
    rewrite take_app_length, drop_app_length.
    rewrite bool_decide_eq_true_2 by reflexivity.
    f_equal. unfold ct, Demo.xor_with. rewrite map_map.
    rewrite <- (map_id plaintext) at 2. apply map_ext. intros b.
    now rewrite Z.lxor_assoc, Z.lxor_nilpotent, Z.lxor_0_r.
  - intros key nonce ciphertext ad Hlt.
    destruct (Nat.ltb_spec (length ciphertext) TagSize); [reflexivity | lia].
Qed.

Lemma aes_NewCipher_32 key :
  length key = KeySize -> aes_NewCipher key = Ok key.
Proof.
  intros Hk. unfold aes_NewCipher, aes_key_ok. rewrite Hk. reflexivity.
Qed.

Lemma Encrypt_eq {aead : AEAD} rnd key plaintext :
  length key = KeySize -> (NonceSize <= length rnd)%nat ->
  Encrypt rnd key plaintext
    = Ok (gcm_Seal key (take NonceSize rnd) (take NonceSize rnd) plaintext []).
Proof.
  intros Hk Hr. unfold Encrypt. rewrite (aes_NewCipher_32 key Hk).
  unfold cipher_NewGCM, io_ReadFull.
  destruct (Nat.leb_spec NonceSize (length rnd)); [reflexivity | lia].
Qed.

(** C3. For a 32-byte key and a 12-byte nonce, [Encrypt] succeeds and
    [Decrypt] under the same key returns the plaintext. *)
Theorem decrypt_encrypt {aead : AEAD} (laws : AEAD_laws aead)
    (key nonce plaintext : list Z) :
  length key = KeySize -> length nonce = NonceSize ->
  exists blob, Encrypt nonce key plaintext = Ok blob /\
               Decrypt key blob = Ok plaintext.
Proof.
  intros Hk Hn. eexists. split.
  - rewrite Encrypt_eq by (try assumption; lia).
    rewrite take_ge by lia. reflexivity.
  - unfold Decrypt. rewrite (aes_NewCipher_32 key Hk). unfold cipher_NewGCM.
    rewrite Seal_appends, length_app, Hn.
    destruct (Nat.ltb_spec (NonceSize + length (gcm_Seal key [] nonce plaintext []))
                           NonceSize); [lia |].
    rewrite <- Hn at 1 2. rewrite take_app_length, drop_app_length.
    rewrite Open_Seal; [reflexivity | | exact Hn].
    unfold aes_key_ok. rewrite Hk. reflexivity.
Qed.

Lemma decrypt_encrypt_witness :
  exists blob,
    @Encrypt Demo.aead Demo.nonce0 Demo.key0 [65; 66] = Ok blob /\
    @Decrypt Demo.aead Demo.key0 blob = Ok [65; 66].
Proof.
  apply (decrypt_encrypt toy_aead_laws Demo.key0 Demo.nonce0 [65; 66]); reflexivity.
Defined.

(** C6. For a 32-byte key, any plaintext [P] and a random source that
    delivers 12 bytes, [Encrypt] succeeds; the blob has [len(P) + 12 + 16]
    bytes, its first 12 bytes are the nonce and the rest is what the AEAD
    sealed for that nonce: the ciphertext with its 16-byte tag. *)
Theorem encrypt_blob_layout {aead : AEAD} (laws : AEAD_laws aead)
    (rnd key plaintext : list Z) :
  length key = KeySize -> (NonceSize <= length rnd)%nat ->
  exists blob,
    Encrypt rnd key plaintext = Ok blob /\
    length blob = (length plaintext + 12 + 16)%nat /\
    take 12 blob = take NonceSize rnd /\
    drop 12 blob = gcm_Seal key [] (take NonceSize rnd) plaintext [] /\
    length (drop 12 blob) = (length plaintext + 16)%nat.
Proof.
  intros Hk Hr. eexists. split; [apply Encrypt_eq; assumption |].
  assert (Hn : length (take NonceSize rnd) = 12%nat).
  { rewrite length_take. unfold NonceSize in *. lia. }
  rewrite Seal_appends.
  split; [| split; [| split]].
  - rewrite length_app, Seal_length, Hn. unfold TagSize. lia.
  - rewrite <- Hn at 1. apply take_app_length.
  - rewrite <- Hn at 1. apply drop_app_length.
  - rewrite <- Hn at 1. rewrite drop_app_length, Seal_length. reflexivity.
Qed.

Lemma encrypt_blob_layout_witness :
  exists blob,
    @Encrypt Demo.aead Demo.nonce0 Demo.key0 [65; 66] = Ok blob /\
    length blob = (length [65; 66] + 12 + 16)%nat /\
    take 12 blob = take NonceSize Demo.nonce0 /\
    drop 12 blob = @gcm_Seal Demo.aead Demo.key0 [] (take NonceSize Demo.nonce0) [65; 66] [] /\
    length (drop 12 blob) = (length [65; 66] + 16)%nat.
Proof.
  apply (encrypt_blob_layout toy_aead_laws Demo.nonce0 Demo.key0 [65; 66]).
  - reflexivity.
  - vm_compute; lia.
Defined.

(** C7. For a 32-byte key, [Decrypt] of a blob shorter than 12 bytes is the
    ciphertext-too-short error, whatever the AEAD does (the blob is not
    split and [Open] is not consulted); of a blob shorter than 12 + 16 bytes
    it is an error, never a plaintext. *)
Theorem decrypt_short_blob {aead : AEAD} (laws : AEAD_laws aead)
    (key blob : list Z) :
  length key = KeySize -> (length blob < 12 + 16)%nat ->
  (exists e, Decrypt key blob = Err e) /\
  ((length blob < 12)%nat ->
   forall other : AEAD, @Decrypt other key blob = Err ErrCiphertextTooShort).
Proof.
  intros Hk Hlen. split.
  - unfold Decrypt. rewrite (aes_NewCipher_32 key Hk). unfold cipher_NewGCM.
    destruct (Nat.ltb_spec (length blob) NonceSize); [eauto |].
    rewrite Open_short; [eauto |].
    rewrite length_drop. unfold NonceSize, TagSize in *. lia.
  - intros Hshort other. unfold Decrypt.
    rewrite (aes_NewCipher_32 key Hk). unfold cipher_NewGCM.
    destruct (Nat.ltb_spec (length blob) NonceSize);
      [reflexivity | unfold NonceSize in *; lia].
Qed.

Lemma decrypt_short_blob_witness :
  (exists e, @Decrypt Demo.aead Demo.key0 [1; 2; 3; 4; 5] = Err e) /\
  ((length [1; 2; 3; 4; 5] < 12)%nat ->
   forall other : AEAD,
     @Decrypt other Demo.key0 [1; 2; 3; 4; 5] = Err ErrCiphertextTooShort).
Proof.
  apply (decrypt_short_blob toy_aead_laws Demo.key0 [1; 2; 3; 4; 5]).
  - reflexivity.
  - vm_compute; lia.
Defined.

(** ** BatchRunner: the walk *)

Lemma walk_names_nil {S} (walkFn : WalkFunc S) rec path st :
  walk_names walkFn rec path [] st = (st, None).
Proof. reflexivity. Qed.

Lemma walk_names_cons {S} (walkFn : WalkFunc S) rec path c rest st :
  walk_names walkFn rec path (c :: rest) st =
  let filename := filepath_Join path (node_name c) in
  match c with
  | Unstatable _ e =>
      let '(st', r) := walkFn filename (node_info c) (Some e) st in
      match r with
      | Some (Abort _) => (st', r)
      | _ => walk_names walkFn rec path rest st'
      end
  | _ =>
      let '(st', r) := rec filename c st in
      match r with
      | None => walk_names walkFn rec path rest st'
      | Some SkipDir =>
          if IsDir (node_info c) then walk_names walkFn rec path rest st' else (st', r)
      | Some (Abort _) => (st', r)
      end
  end.
Proof. destruct c; reflexivity. Qed.

Lemma Join_longer (inputDir path name : string) (top : bool) :
  (if top then path = inputDir
   else (String.length inputDir < String.length path)%nat) ->
  (String.length inputDir < String.length (filepath_Join path name))%nat.
Proof.
  intros Hp. unfold filepath_Join. rewrite !string_length_append. simpl.
  destruct top; [subst |]; lia.
Qed.

Lemma eqb_longer (inputDir path : string) :
  (String.length inputDir < String.length path)%nat ->
  String.eqb path inputDir = false.
Proof.
  intros Hlt. apply String.eqb_neq. intros ->. lia.
Qed.

(** A callback that starts one goroutine for each selected regular file and
    skips the directories below the root unless [recursive]. *)
Section WalkSelect.
Variables (env : Env) (inputDir : string) (recursive : bool).
Variables (sel : string -> FileInfo -> bool) (mk : string -> string).
Variable walkFn : WalkFunc (list task).

Hypothesis walkFn_spec : forall path info spawned,
  walkFn path info None spawned =
  if IsDir info && negb (String.eqb path inputDir) && negb recursive
  then (spawned, Some SkipDir)
  else if negb (IsDir info) && sel path info then
    match filepath_Rel env inputDir path with
    | Err e => (spawned, Some (Abort e))
    | Ok relPath => (spawned ++ [(path, mk relPath)], None)
    end
  else (spawned, None).

Hypothesis Rel_total : forall p, is_Ok (filepath_Rel env inputDir p) = true.

Lemma walk_readable (n : node) :
  readable n = true ->
  forall (path : string) (top : bool) (spawned : list task),
    (if top then path = inputDir
     else (String.length inputDir < String.length path)%nat) ->
    exists r,
      walk walkFn path n spawned
        = (spawned ++ map (fun p => (p, mk (rel_of env inputDir p)))
                          (files_under sel recursive top path n), r) /\
      (r = None \/ (r = Some SkipDir /\ IsDir (node_info n) = true)).
Proof.
  induction n as [name | name err children IH | name e] using node_ind_nested;
    intros Hr path top spawned Hp.
  - (* a regular file *)
    cbn [walk node_info files_under]. rewrite walkFn_spec. cbn [IsDir].
    rewrite andb_false_l, andb_true_l.
    destruct (sel path {| Name := name; IsDir := false |}).
    + pose proof (Rel_total path) as Hrel. unfold rel_of. cbn [map].
      destruct (filepath_Rel env inputDir path); [| discriminate].
      exists None. split; [reflexivity | left; reflexivity].
    + exists None. cbn [map]. rewrite app_nil_r. auto.
  - (* a directory *)
    cbn [readable] in Hr. destruct err; [discriminate |].
    cbn [walk node_info files_under]. rewrite walkFn_spec. cbn [IsDir].
    rewrite andb_true_l, andb_false_l.
    assert (Hloop : forall sp,
      walk_names walkFn (walk walkFn) path children sp
      = (sp ++ map (fun p => (p, mk (rel_of env inputDir p)))
                   (flat_map (fun c => files_under sel recursive false
                                (filepath_Join path (node_name c)) c) children),
         None)).
    { clear - IH Hr Hp.
      induction children as [| c rest IHrest]; intros sp.
      - rewrite walk_names_nil. cbn. now rewrite app_nil_r.
      - cbn [forallb] in Hr. apply andb_true_iff in Hr as [Hc Hrest].
        apply Forall_cons_1 in IH as [IHc IHall].
        destruct (IHc Hc (filepath_Join path (node_name c)) false sp)
          as (r & Hw & Hcase).
        { cbn. eapply Join_longer. exact Hp. }
        rewrite walk_names_cons. cbn zeta.
        cbn [flat_map]. rewrite map_app, app_assoc.
        destruct c as [cname | cname cerr cch | cname ce];
          [| | discriminate Hc].
        + rewrite Hw. destruct Hcase as [-> | [-> Hd]];
            [| discriminate Hd].
          apply IHrest; assumption.
        + rewrite Hw. destruct Hcase as [-> | [-> Hd]].
          * apply IHrest; assumption.
          * rewrite Hd. apply IHrest; assumption. }
    destruct top.
    + subst path. rewrite String.eqb_refl. cbn [negb andb orb].
      rewrite Hloop. exists None. auto.
    + rewrite (eqb_longer _ _ Hp). cbn [negb andb orb].
      destruct recursive; cbn [negb].
      * rewrite Hloop. exists None. auto.
      * exists (Some SkipDir). cbn [map]. rewrite app_nil_r. auto.
  - discriminate Hr.
Qed.

Lemma Walk_readable (tree : node) :
  readable tree = true ->
  filepath_Walk inputDir tree walkFn []
    = (map (fun p => (p, mk (rel_of env inputDir p)))
           (files_under sel recursive true inputDir tree), None).
Proof.
  intros Hr. unfold filepath_Walk.
  destruct (walk_readable tree Hr inputDir true [] eq_refl) as (r & -> & Hcase).
  destruct Hcase as [-> | [-> _]]; reflexivity.
Qed.
End WalkSelect.

Lemma encrypt_walkFn_spec env fs inputDir outputDir recursive path info spawned :
  encrypt_walkFn env fs inputDir outputDir recursive path info None spawned =
  if IsDir info && negb (String.eqb path inputDir) && negb recursive
  then (spawned, Some SkipDir)
  else if negb (IsDir info) && isImageFile env path fs then
    match filepath_Rel env inputDir path with
    | Err e => (spawned, Some (Abort e))
    | Ok relPath =>
        (spawned ++ [(path, filepath_Join outputDir (relPath ++ EncryptedExtension)%string)],
         None)
    end
  else (spawned, None).
Proof.
  unfold encrypt_walkFn.
  destruct (IsDir info && negb (String.eqb path inputDir) && negb recursive);
    [reflexivity |].
  destruct (IsDir info), (isImageFile env path fs); reflexivity.
Qed.

Lemma decrypt_walkFn_spec env inputDir outputDir recursive encryptedExt path info spawned :
  decrypt_walkFn env inputDir outputDir recursive encryptedExt path info None spawned =
  if IsDir info && negb (String.eqb path inputDir) && negb recursive
  then (spawned, Some SkipDir)
  else if negb (IsDir info) && strings_HasSuffix (Name info) encryptedExt then
    match filepath_Rel env inputDir path with
    | Err e => (spawned, Some (Abort e))
    | Ok relPath =>
        (spawned ++ [(path, filepath_Join outputDir (strings_TrimSuffix relPath encryptedExt))],
         None)
    end
  else (spawned, None).
Proof. reflexivity. Qed.

(** ** BatchRunner: running the goroutines *)

(** Every started goroutine produces an outcome, whatever the others did. *)
Lemma run_tasks_all (body : string -> string -> M unit) (spawned : list task) (fs : FS) :
  map fst (fst (run_tasks body spawned fs)) = spawned.
Proof.
  revert fs. induction spawned as [| [p o] rest IH]; intros fs; [reflexivity |].
  cbn [run_tasks]. destruct (body p o fs) as [r fs1].
  specialize (IH fs1). destruct (run_tasks body rest fs1) as [outs fs2].
  cbn in *. now rewrite IH.
Qed.

(** The error recorded for a goroutine is the one its own per-file call
    returned. *)
Lemma run_tasks_own_error (body : string -> string -> M unit) (spawned : list task)
    (fs : FS) (p o : string) (e : option error) :
  In (p, o, e) (fst (run_tasks body spawned fs)) ->
  exists fs0, e = match fst (body p o fs0) with Ok _ => None | Err e' => Some e' end.
Proof.
  revert fs. induction spawned as [| [p' o'] rest IH]; intros fs; [intros [] |].
  cbn [run_tasks]. destruct (body p' o' fs) as [r fs1] eqn:Hb.
  specialize (IH fs1). destruct (run_tasks body rest fs1) as [outs fs2].
  cbn [fst In]. intros [Heq | Hin].
  - inversion Heq; subst. exists fs. now rewrite Hb.
  - apply IH. exact Hin.
Qed.

(** One failing file among three entries: the write of [out/a.png.enc]
    fails, [b.png] is still encrypted, [c.txt] is not an image, and the run
    returns no error. *)
Example batch_one_failure :
  let run := @encryptDirectory Demo.env_write_fails Demo.aead Demo.photos
               "in" "out" Demo.key0 false false Demo.photos_fs in
  fst (fst run) = None /\
  snd (fst run) = [("in/a.png", "out/a.png.enc", Some ErrWriteFile);
                   ("in/b.png", "out/b.png.enc", None)]%string /\
  is_Some (snd run !! "out/b.png.enc"%string) /\
  snd run !! "out/a.png.enc"%string = None.
Proof. vm_compute. repeat split; eauto. Qed.

(** ** BatchRunner: how many goroutines are in flight *)

Lemma step_count (s s' : sched) :
  step s s' ->
  (length (to_spawn s') + length (in_flight s') + length (finished s')
   = length (to_spawn s) + length (in_flight s) + length (finished s))%nat.
Proof.
  intros []; cbn [to_spawn in_flight finished];
    rewrite ?length_app; cbn [length]; lia.
Qed.

Lemma reachable_count (spawned : list task) (s : sched) :
  reachable spawned s ->
  (length (to_spawn s) + length (in_flight s) + length (finished s)
   = length spawned)%nat.
Proof.
  unfold reachable. revert s. apply rtc_ind_r.
  - cbn. lia.
  - intros s1 s2 _ Hstep IH. rewrite (step_count _ _ Hstep). exact IH.
Qed.

(** The walk can reach its end before any goroutine returns. *)
Lemma spawn_all (l fl dn : list task) :
  rtc step (mkSched l fl dn) (mkSched [] (fl ++ l) dn).
Proof.
  revert fl. induction l as [| t rest IH]; intros fl.
  - rewrite app_nil_r. apply rtc_refl.
  - eapply rtc_l; [apply step_spawn |].
    replace (fl ++ t :: rest) with ((fl ++ [t]) ++ rest)
      by (now rewrite <- app_assoc).
    apply IH.
Qed.

Lemma substring_whole (s : string) : substring 0 (String.length s) s = s.
Proof. induction s as [| c s IH]; cbn; [reflexivity | now rewrite IH]. Qed.

Lemma HasSuffix_app (s suffix : string) :
  strings_HasSuffix (s ++ suffix) suffix = true.
Proof.
  unfold strings_HasSuffix. rewrite string_length_append.
  apply andb_true_iff. split; [apply Nat.leb_le; lia |].
  replace (String.length s + String.length suffix - String.length suffix)%nat
    with (String.length s) by lia.
  apply String.eqb_eq.
  induction s as [| c s IH].
  - apply substring_whole.
  - exact IH.
Qed.

Lemma flat_dir_spawned (n : nat) :
  length (decrypt_spawned Demo.env (Demo.flat_dir n) "in" "out" false ".enc") = n.
Proof.
  unfold decrypt_spawned.
  rewrite (Walk_readable Demo.env "in" false
             (fun _ info => strings_HasSuffix (Name info) ".enc")
             (fun rel => filepath_Join "out" (strings_TrimSuffix rel ".enc"))
             (decrypt_walkFn Demo.env "in" "out" false ".enc")
             (decrypt_walkFn_spec Demo.env "in" "out" false ".enc")).
  - cbn [fst]. rewrite length_map. unfold Demo.flat_dir. cbn [files_under orb].
    generalize 0%nat at 1. induction n as [| n IH]; intros k; [reflexivity |].
    cbn [seq map flat_map]. rewrite length_app, IH.
    cbn [files_under node_info Name node_name].
    unfold Demo.enc_name at 1. now rewrite HasSuffix_app.
  - intros p. reflexivity.
  - unfold Demo.flat_dir. cbn [readable].
    generalize 0%nat. induction n as [| n IH]; intros k; [reflexivity |].
    cbn [seq map forallb readable]. apply IH.
Qed.


(** * Further properties *)

(** ** Steganography *)

Lemma embed_eq m c :
  is_uint8 m = true -> color_ok c = true ->
  embed m c = mkRGBA (2 * (R c / 2) + Z.b2z (Z.testbit m 7))
                     (2 * (G c / 2) + Z.b2z (Z.testbit m 6))
                     (2 * (B c / 2) + Z.b2z (Z.testbit m 5))
                     (2 * (A c / 2) + Z.b2z (Z.testbit m 4)).
Proof.
  intros Hm Hc. split_color_ok Hc.
  destruct c as [r g b a]; unfold embed, RGBA; cbn [R G B A] in *.
  destruct (embed_channels r m) as (-> & _); [assumption .. |].
  destruct (embed_channels g m) as (_ & -> & _); [assumption .. |].
  destruct (embed_channels b m) as (_ & _ & -> & _); [assumption .. |].
  destruct (embed_channels a m) as (_ & _ & _ & ->); [assumption .. |].
  reflexivity.
Qed.

Lemma set_low_bit_uint8 v (b : bool) :
  is_uint8 v = true -> is_uint8 (2 * (v / 2) + Z.b2z b) = true.
Proof.
  intros Hv. apply is_uint8_range in Hv. apply is_uint8_range.
  pose proof (Z.div_mod v 2 ltac:(lia)) as Hdm.
  pose proof (Z.mod_pos_bound v 2 ltac:(lia)) as Hmod.
  destruct b; cbn [Z.b2z]; lia.
Qed.

Lemma embed_color_ok m c :
  is_uint8 m = true -> color_ok c = true -> color_ok (embed m c) = true.
Proof.
  intros Hm Hc. rewrite (embed_eq m c Hm Hc). split_color_ok Hc.
  unfold color_ok; cbn [R G B A].
  rewrite !set_low_bit_uint8 by assumption. reflexivity.
Qed.

Lemma color_ok_lookup (l : list color_RGBA) (i : nat) (c : color_RGBA) :
  forallb color_ok l = true -> l !! i = Some c -> color_ok c = true.
Proof.
  intros Hall Hc. rewrite forallb_forall in Hall. apply Hall.
  apply list_elem_of_In. eapply list_elem_of_lookup_2. exact Hc.
Qed.

Lemma hide_image_ok (img : image_RGBA) (message : string) :
  image_ok img = true -> image_ok (hide img message) = true.
Proof.
  intros Hok. unfold image_ok in *.
  apply andb_true_iff in Hok as [Hlen Hcol]. apply Nat.eqb_eq in Hlen.
  destruct (hide_spec img message Hlen) as (HDx & HDy & Hl & Hpix).
  apply andb_true_iff. split.
  - apply Nat.eqb_eq. rewrite Hl, HDx, HDy. exact Hlen.
  - apply forallb_forall. intros c Hin.
    apply list_elem_of_In, list_elem_of_lookup in Hin as [i Hi].
    rewrite Hpix in Hi.
    destruct (i <? Nat.min (Dx img * Dy img) (String.length message + 1))%nat.
    + destruct (Pix img !! i) as [c0 |] eqn:Hc0; [| discriminate].
      cbn [fmap option_fmap option_map] in Hi. injection Hi as <-.
      apply embed_color_ok; [apply str_index_uint8 |].
      eapply color_ok_lookup; eassumption.
    + eapply color_ok_lookup; eassumption.
Qed.

(** X1. [hide] keeps a buffer well formed: the same dimensions and number
    of pixels, every channel still a byte. *)
Theorem hide_preserves_image_ok (img : image_RGBA) (message : string) :
  image_ok img = true ->
  image_ok (hide img message) = true /\
  Dx (hide img message) = Dx img /\ Dy (hide img message) = Dy img /\
  length (Pix (hide img message)) = length (Pix img).
Proof.
  intros Hok. split; [apply hide_image_ok; exact Hok |].
  unfold image_ok in Hok. apply andb_true_iff in Hok as [Hlen _].
  apply Nat.eqb_eq in Hlen.
  destruct (hide_spec img message Hlen) as (HDx & HDy & Hl & _).
  repeat split; assumption.
Qed.

Lemma hide_preserves_image_ok_witness :
  image_ok (hide Demo.img2x1 "A") = true.
Proof. exact (proj1 (hide_preserves_image_ok Demo.img2x1 "A" eq_refl)). Defined.

(** X2. [hide] changes every channel of every pixel, the alpha channel
    included, by at most one. *)
Theorem hide_changes_at_most_one (img : image_RGBA) (message : string)
    (i : nat) (c c' : color_RGBA) :
  image_ok img = true ->
  pixel img i = Some c -> pixel (hide img message) i = Some c' ->
  Z.abs (R c' - R c) <= 1 /\ Z.abs (G c' - G c) <= 1 /\
  Z.abs (B c' - B c) <= 1 /\ Z.abs (A c' - A c) <= 1.
Proof.
  intros Hok Hc Hc'. unfold image_ok in Hok. unfold pixel in *.
  apply andb_true_iff in Hok as [Hlen Hcol]. apply Nat.eqb_eq in Hlen.
  destruct (hide_spec img message Hlen) as (_ & _ & _ & Hpix).
  rewrite Hpix, Hc in Hc'.
  destruct (i <? Nat.min (Dx img * Dy img) (String.length message + 1))%nat.
  - cbn [fmap option_fmap option_map] in Hc'. injection Hc' as <-.
    pose proof (color_ok_lookup _ _ _ Hcol Hc) as Hok.
    rewrite (embed_eq _ c (str_index_uint8 _ _) Hok). cbn [R G B A].
    assert (Hd : forall v (b : bool), Z.abs (2 * (v / 2) + Z.b2z b - v) <= 1).
    { intros v b. pose proof (Z.div_mod v 2 ltac:(lia)).
      pose proof (Z.mod_pos_bound v 2 ltac:(lia)). destruct b; cbn; lia. }
    repeat split; apply Hd.
  - injection Hc' as <-. rewrite !Z.sub_diag. cbn. lia.
Qed.

Lemma hide_changes_at_most_one_witness :
  Z.abs (R (mkRGBA 254 255 6 254) - R (mkRGBA 255 254 7 255)) <= 1 /\
  Z.abs (G (mkRGBA 254 255 6 254) - G (mkRGBA 255 254 7 255)) <= 1 /\
  Z.abs (B (mkRGBA 254 255 6 254) - B (mkRGBA 255 254 7 255)) <= 1 /\
  Z.abs (A (mkRGBA 254 255 6 254) - A (mkRGBA 255 254 7 255)) <= 1.
Proof.
  apply (hide_changes_at_most_one Demo.img2x1 "A" 0); reflexivity.
Defined.

Lemma image_eq (a b : image_RGBA) :
  Pix a = Pix b -> Dx a = Dx b -> Dy a = Dy b -> a = b.
Proof. destruct a, b; cbn; intros -> -> ->; reflexivity. Qed.

Lemma embed_idem m c :
  is_uint8 m = true -> color_ok c = true -> embed m (embed m c) = embed m c.
Proof.
  intros Hm Hc.
  rewrite (embed_eq m (embed m c) Hm (embed_color_ok m c Hm Hc)).
  rewrite (embed_eq m c Hm Hc). cbn [R G B A].
  assert (Hd : forall v (b : bool),
             2 * ((2 * (v / 2) + Z.b2z b) / 2) + Z.b2z b = 2 * (v / 2) + Z.b2z b).
  { intros v b. f_equal. f_equal.
    rewrite Z.add_comm, Z.mul_comm, Z.div_add by lia. destruct b; reflexivity. }
  now rewrite !Hd.
Qed.

(** X3. Hiding the same message a second time changes nothing. *)
Theorem hide_idempotent (img : image_RGBA) (message : string) :
  image_ok img = true ->
  hide (hide img message) message = hide img message.
Proof.
  intros Hok. pose proof (hide_image_ok img message Hok) as Hok'.
  unfold image_ok in Hok, Hok'.
  apply andb_true_iff in Hok as [Hlen Hcol]. apply Nat.eqb_eq in Hlen.
  apply andb_true_iff in Hok' as [Hlen' _]. apply Nat.eqb_eq in Hlen'.
  destruct (hide_spec img message Hlen) as (HDx & HDy & Hl & Hpix).
  destruct (hide_spec (hide img message) message Hlen') as (HDx' & HDy' & Hl' & Hpix').
  apply image_eq; [| assumption | assumption].
  apply list_eq. intros i. rewrite Hpix', HDx, HDy, Hpix.
  destruct (i <? Nat.min (Dx img * Dy img) (String.length message + 1))%nat;
    [| reflexivity].
  destruct (Pix img !! i) as [c |] eqn:Hc; [| reflexivity].
  cbn [fmap option_fmap option_map]. f_equal.
  apply embed_idem; [apply str_index_uint8 |].
  eapply color_ok_lookup; eassumption.
Qed.

Lemma hide_idempotent_witness :
  hide (hide Demo.img2x1 "A") "A" = hide Demo.img2x1 "A".
Proof. apply hide_idempotent. reflexivity. Defined.

Lemma bytes_of_string_app (s1 s2 : string) :
  bytes_of_string (s1 ++ s2) = bytes_of_string s1 ++ bytes_of_string s2.
Proof. induction s1 as [| c s1 IH]; simpl; [reflexivity | now rewrite IH]. Qed.

Lemma bytes_of_string_length (s : string) :
  length (bytes_of_string s) = String.length s.
Proof. induction s as [| c s IH]; cbn; [reflexivity | now rewrite IH]. Qed.

Lemma string_of_bytes_of_string (s : string) :
  string_of_bytes (bytes_of_string s) = s.
Proof.
  induction s as [| c s IH]; cbn; [reflexivity |].
  now rewrite ascii_of_byte_of_ascii, IH.
Qed.

Lemma bytes_of_string_uint8 (s : string) :
  Forall (fun b => is_uint8 b = true) (bytes_of_string s).
Proof.
  induction s as [| c s IH]; cbn; constructor;
    [apply byte_of_ascii_uint8 | exact IH].
Qed.

Lemma reveal_hide_any (img : image_RGBA) (message : string) :
  image_ok img = true ->
  reveal (hide img message)
  = string_of_bytes
      (truncate_at_NUL
         (map high_nibble
            (take (Dx img * Dy img)
                  (bytes_of_string (message ++ String NUL EmptyString))))).
Proof.
  intros Hok.
  destruct (Nat.le_gt_cases (String.length message + 1) (Dx img * Dy img))
    as [Hcap | Hcap].
  - rewrite (reveal_hide img message Hok Hcap). f_equal.
    rewrite take_ge
      by (rewrite bytes_of_string_length, string_length_append; cbn; lia).
    rewrite bytes_of_string_app, map_app. cbn [bytes_of_string map].
    change (high_nibble (byte_of_ascii NUL)) with 0.
    now rewrite truncate_at_NUL_app.
  - unfold image_ok in Hok.
    apply andb_true_iff in Hok as [Hlen Hcol]. apply Nat.eqb_eq in Hlen.
    destruct (hide_spec img message Hlen) as (HDx & HDy & Hl & Hpix).
    rewrite reveal_eq, reveal_bytes_eq by (rewrite HDx, HDy, Hl; exact Hlen).
    do 2 f_equal. apply list_eq. intros i.
    rewrite !list_lookup_fmap, Hpix.
    destruct (Nat.lt_ge_cases i (Dx img * Dy img)) as [Hi | Hi].
    + destruct (Nat.ltb_spec i (Nat.min (Dx img * Dy img) (String.length message + 1)));
        [| lia].
      destruct (lookup_lt_is_Some_2 (Pix img) i) as [c Hc]; [lia |].
      rewrite Hc, lookup_take_lt by lia.
      rewrite bytes_of_string_lookup
        by (rewrite string_length_append; cbn; lia).
      cbn [fmap option_fmap option_map]. f_equal.
      apply reveal_embed; [apply str_index_uint8 |].
      eapply color_ok_lookup; eassumption.
    + destruct (Nat.ltb_spec i (Nat.min (Dx img * Dy img) (String.length message + 1)));
        [lia |].
      rewrite lookup_take_ge by lia.
      rewrite (lookup_ge_None_2 (Pix img) i) by lia. reflexivity.
Qed.

(** X4. What [reveal] returns after [hide], for any message length: the
    upper four bits of the bytes of the NUL-terminated message that fit in
    the image (one per pixel), cut at the first byte that becomes NUL. In
    particular, in an image with no more pixels than the message has bytes
    the terminator is not stored and only message bytes are decoded. *)
Theorem reveal_after_hide (img : image_RGBA) (message : string) :
  image_ok img = true ->
  reveal (hide img message)
  = string_of_bytes
      (truncate_at_NUL
         (map high_nibble
            (take (Dx img * Dy img)
                  (bytes_of_string (message ++ String NUL EmptyString))))) /\
  ((Dx img * Dy img <= String.length message)%nat ->
   reveal (hide img message)
   = string_of_bytes
       (truncate_at_NUL
          (map high_nibble (take (Dx img * Dy img) (bytes_of_string message))))).
Proof.
  intros Hok. split; [apply reveal_hide_any; exact Hok |].
  intros Hover. rewrite (reveal_hide_any img message Hok).
  rewrite bytes_of_string_app, take_app_le
    by (rewrite bytes_of_string_length; exact Hover).
  reflexivity.
Qed.

Lemma reveal_after_hide_witness :
  reveal (hide Demo.img1x1 "AB")
  = string_of_bytes
      (truncate_at_NUL
         (map high_nibble
            (take (Dx Demo.img1x1 * Dy Demo.img1x1)
                  (bytes_of_string ("AB" ++ String NUL EmptyString))))).
Proof. exact (proj1 (reveal_after_hide Demo.img1x1 "AB" eq_refl)). Defined.

(** X5. A message hidden over an earlier one replaces it entirely: what
    [reveal] returns depends on the last message only, not on what the
    carrier held before. *)
Theorem rehide_overwrites (img : image_RGBA) (earlier message : string) :
  image_ok img = true ->
  reveal (hide (hide img earlier) message) = reveal (hide img message).
Proof.
  intros Hok.
  pose proof (hide_image_ok img earlier Hok) as Hok'.
  rewrite (reveal_hide_any _ message Hok'), (reveal_hide_any _ message Hok).
  unfold image_ok in Hok. apply andb_true_iff in Hok as [Hlen _].
  apply Nat.eqb_eq in Hlen.
  destruct (hide_spec img earlier Hlen) as (-> & -> & _). reflexivity.
Qed.

Lemma rehide_overwrites_witness :
  reveal (hide (hide Demo.img2x1 "P") "@") = reveal (hide Demo.img2x1 "@").
Proof. apply rehide_overwrites. reflexivity. Defined.

Lemma truncate_high_nibble_fixed (l : list Z) :
  truncate_at_NUL (map high_nibble l) = l <->
  Forall (fun b => high_nibble b = b /\ b <> 0) l.
Proof.
  induction l as [| b l IH]; cbn.
  - split; [constructor | reflexivity].
  - destruct (Z.eqb_spec (high_nibble b) 0) as [H0 | Hn0].
    + split; [discriminate |].
      intros HF. apply Forall_cons_1 in HF as [[Hb Hnz] _]. congruence.
    + split.
      * intros [= Hb Hl]. constructor.
        -- split; [exact Hb | congruence].
        -- apply IH. exact Hl.
      * intros HF. apply Forall_cons_1 in HF as [[Hb _] HF].
        f_equal; [exact Hb | apply IH; exact HF].
Qed.

(** X6. When the message and its terminator fit in the image, the round
    trip returns the message exactly when every byte of the message is a
    nonzero multiple of 16 (its low four bits are zero). *)
Theorem roundtrip_iff_high_nibbles (img : image_RGBA) (message : string) :
  image_ok img = true ->
  (String.length message + 1 <= Dx img * Dy img)%nat ->
  reveal (hide img message) = message <->
  Forall (fun b => b mod 16 = 0 /\ b <> 0) (bytes_of_string message).
Proof.
  intros Hok Hcap. rewrite (reveal_hide img message Hok Hcap).
  change (fun b => Z.land b 240) with high_nibble.
  assert (Huint : forall l, Forall (fun b => is_uint8 b = true) l ->
            Forall (fun b => is_uint8 b = true) (truncate_at_NUL (map high_nibble l))).
  { intros l Hl. induction Hl as [| b l Hb _ IH]; cbn; [constructor |].
    destruct (high_nibble b =? 0); constructor; [| exact IH].
    revert Hb. apply (forall_uint8 (fun b => is_uint8 (high_nibble b)));
      vm_compute; reflexivity. }
  assert (Hnib : forall b, is_uint8 b = true ->
            (high_nibble b = b <-> b mod 16 = 0)).
  { intros b Hb.
    assert (Hchk : Bool.eqb (high_nibble b =? b) (b mod 16 =? 0) = true).
    { revert Hb.
      apply (forall_uint8 (fun b => Bool.eqb (high_nibble b =? b) (b mod 16 =? 0)));
        vm_compute; reflexivity. }
    apply Bool.eqb_prop in Hchk.
    rewrite <- !Z.eqb_eq, Hchk. reflexivity. }
  pose proof (bytes_of_string_uint8 message) as Hm.
  split.
  - intros Heq. apply (f_equal bytes_of_string) in Heq.
    rewrite bytes_of_string_of_bytes in Heq by (apply Huint; exact Hm).
    apply truncate_high_nibble_fixed in Heq.
    rewrite Forall_forall in Heq, Hm. apply Forall_forall. intros b Hb.
    destruct (Heq b Hb) as [Hh Hnz]. split; [| exact Hnz].
    apply Hnib; [apply Hm; exact Hb | exact Hh].
  - intros HF.
    assert (Hfix : Forall (fun b => high_nibble b = b /\ b <> 0) (bytes_of_string message)).
    { rewrite Forall_forall in HF, Hm. apply Forall_forall. intros b Hb.
      destruct (HF b Hb) as [Hh Hnz]. split; [| exact Hnz].
      apply Hnib; [apply Hm; exact Hb | exact Hh]. }
    apply truncate_high_nibble_fixed in Hfix. rewrite Hfix.
    apply string_of_bytes_of_string.
Qed.

Lemma roundtrip_iff_high_nibbles_witness :
  reveal (hide Demo.img2x1 "@") = "@"%string <->
  Forall (fun b => b mod 16 = 0 /\ b <> 0) (bytes_of_string "@").
Proof.
  apply roundtrip_iff_high_nibbles; [reflexivity | vm_compute; lia].
Defined.

(** ** CipherEngine and key generation *)

Lemma Encrypt_ok {aead : AEAD} rnd key plaintext :
  aes_key_ok key = true -> (NonceSize <= length rnd)%nat ->
  Encrypt rnd key plaintext
    = Ok (gcm_Seal key (take NonceSize rnd) (take NonceSize rnd) plaintext []).
Proof.
  intros Hk Hr. unfold Encrypt, aes_NewCipher. rewrite Hk.
  unfold cipher_NewGCM, io_ReadFull.
  destruct (Nat.leb_spec NonceSize (length rnd)); [reflexivity | lia].
Qed.

Lemma Decrypt_Seal {aead : AEAD} (laws : AEAD_laws aead) key nonce plaintext :
  aes_key_ok key = true -> length nonce = NonceSize ->
  Decrypt key (gcm_Seal key nonce nonce plaintext []) = Ok plaintext.
Proof.
  intros Hk Hn. unfold Decrypt, aes_NewCipher. rewrite Hk. unfold cipher_NewGCM.
  rewrite Seal_appends, length_app, Hn.
  destruct (Nat.ltb_spec (NonceSize + length (gcm_Seal key [] nonce plaintext []))
                         NonceSize); [lia |].
  rewrite <- Hn at 1 2. rewrite take_app_length, drop_app_length.
  now rewrite Open_Seal.
Qed.

(** X7. [Encrypt] succeeds exactly when the key has 16, 24 or 32 bytes (the
    32-byte [KeySize] is not checked here) and the random source delivers 12
    bytes; a bad key is reported first, by [Encrypt] and by [Decrypt] alike;
    and whenever [Encrypt] succeeds, [Decrypt] under the same key returns the
    plaintext. *)
Theorem Encrypt_succeeds_iff {aead : AEAD} (laws : AEAD_laws aead)
    (rnd key plaintext : list Z) :
  is_Ok (Encrypt rnd key plaintext)
    = aes_key_ok key && (NonceSize <=? length rnd)%nat /\
  (aes_key_ok key = false ->
   Encrypt rnd key plaintext = Err ErrCreateCipher /\
   forall blob, Decrypt key blob = Err ErrCreateCipher) /\
  (aes_key_ok key = true -> (length rnd < NonceSize)%nat ->
   Encrypt rnd key plaintext = Err ErrCreateNonce) /\
  (forall blob, Encrypt rnd key plaintext = Ok blob ->
                Decrypt key blob = Ok plaintext).
Proof.
  destruct (aes_key_ok key) eqn:Hk.
  - destruct (Nat.leb_spec NonceSize (length rnd)) as [Hr | Hr].
    + rewrite (Encrypt_ok rnd key plaintext Hk Hr). cbn [is_Ok andb].
      split; [reflexivity |]. split; [discriminate |]. split; [lia |].
      intros blob [= <-]. apply Decrypt_Seal; [exact laws | exact Hk |].
      rewrite length_take. lia.
    + assert (HE : Encrypt rnd key plaintext = Err ErrCreateNonce).
      { unfold Encrypt, aes_NewCipher. rewrite Hk. unfold cipher_NewGCM, io_ReadFull.
        destruct (Nat.leb_spec NonceSize (length rnd)); [lia | reflexivity]. }
      rewrite HE. cbn [is_Ok andb].
      split; [reflexivity |]. split; [discriminate |].
      split; [reflexivity | discriminate].
  - assert (HE : Encrypt rnd key plaintext = Err ErrCreateCipher)
      by (unfold Encrypt, aes_NewCipher; now rewrite Hk).
    rewrite HE. cbn [is_Ok andb].
    split; [reflexivity |]. split; [| split; discriminate].
    intros _. split; [reflexivity |].
    intros blob. unfold Decrypt, aes_NewCipher. now rewrite Hk.
Qed.

Lemma Encrypt_succeeds_iff_witness :
  is_Ok (@Encrypt Demo.aead (repeat 3 20) (repeat 9 16) [65; 66])
  = aes_key_ok (repeat 9 16) && (NonceSize <=? length (repeat 3 20))%nat.
Proof.
  exact (proj1
    (Encrypt_succeeds_iff toy_aead_laws (repeat 3 20) (repeat 9 16) [65; 66])).
Defined.

(** X8. [GenerateRandomKey] succeeds exactly when the random source delivers
    [KeySize] bytes; the key it returns has [KeySize] = 32 bytes, and
    encrypting under it and decrypting gives back the plaintext
    (TestGenerateRandomKey, TestEncryptDecrypt). *)
Theorem generated_key_roundtrip {aead : AEAD} (laws : AEAD_laws aead)
    (rnd nonce_rnd plaintext : list Z) :
  (KeySize <= length rnd)%nat -> (NonceSize <= length nonce_rnd)%nat ->
  exists key blob,
    GenerateRandomKey rnd = Some key /\ length key = KeySize /\
    Encrypt nonce_rnd key plaintext = Ok blob /\
    Decrypt key blob = Ok plaintext.
Proof.
  intros Hr Hn. unfold GenerateRandomKey.
  destruct (Nat.leb_spec KeySize (length rnd)); [| lia].
  assert (Hlen : length (take KeySize rnd) = KeySize) by (rewrite length_take; lia).
  assert (Hk : aes_key_ok (take KeySize rnd) = true)
    by (unfold aes_key_ok; rewrite Hlen; reflexivity).
  eexists. eexists. split; [reflexivity |]. split; [exact Hlen |].
  split; [apply Encrypt_ok; assumption |].
  apply Decrypt_Seal; [exact laws | exact Hk |]. rewrite length_take. lia.
Qed.

Lemma generated_key_roundtrip_witness :
  exists key blob,
    GenerateRandomKey (repeat 5 40) = Some key /\ length key = KeySize /\
    @Encrypt Demo.aead (repeat 7 12) key [65; 66] = Ok blob /\
    @Decrypt Demo.aead key blob = Ok [65; 66].
Proof.
  apply (generated_key_roundtrip toy_aead_laws (repeat 5 40) (repeat 7 12) [65; 66]);
    vm_compute; lia.
Defined.

(** ** Single-file commands *)

Lemma read_only_touches {A} (m : M A) filename :
  read_only m -> touches_only m filename.
Proof. intros Hm fs f _. now rewrite Hm. Qed.

Lemma touches_only_bind {A B} (m : M A) (k : A -> M B) filename :
  touches_only m filename -> (forall a, touches_only (k a) filename) ->
  touches_only (bind m k) filename.
Proof.
  intros Hm Hk fs f Hf. unfold bind.
  specialize (Hm fs f Hf). destruct (m fs) as [[a | e] fs1]; cbn [snd] in *.
  - rewrite (Hk a fs1 f Hf). exact Hm.
  - exact Hm.
Qed.

Lemma read_only_bind {A B} (m : M A) (k : A -> M B) :
  read_only m -> (forall a, read_only (k a)) -> read_only (bind m k).
Proof.
  intros Hm Hk fs. unfold bind.
  specialize (Hm fs). destruct (m fs) as [[a | e] fs1]; cbn [snd] in *.
  - rewrite (Hk a fs1). exact Hm.
  - exact Hm.
Qed.

Lemma read_only_wrap {A} (m : M A) e : read_only m -> read_only (wrap m e).
Proof.
  intros Hm fs. unfold wrap. specialize (Hm fs).
  destruct (m fs) as [[a | e'] fs1]; exact Hm.
Qed.

Lemma touches_only_wrap {A} (m : M A) e filename :
  touches_only m filename -> touches_only (wrap m e) filename.
Proof.
  intros Hm fs f Hf. unfold wrap. specialize (Hm fs f Hf).
  destruct (m fs) as [[a | e'] fs1]; exact Hm.
Qed.

Lemma read_only_lift {A} (r : result A) : read_only (lift r).
Proof. intros fs. reflexivity. Qed.

Lemma read_only_ret {A} (a : A) : read_only (ret a).
Proof. intros fs. reflexivity. Qed.

Lemma read_only_check o : read_only (check o).
Proof. intros fs. unfold check. destruct o; reflexivity. Qed.

Lemma read_only_os_Open env filename : read_only (os_Open env filename).
Proof.
  intros fs. unfold os_Open.
  destruct (fs !! filename); [destruct (os_read_err env filename) |]; reflexivity.
Qed.

Lemma read_only_LoadImage env filename : read_only (LoadImage env filename).
Proof.
  unfold LoadImage. apply read_only_bind.
  - apply read_only_wrap, read_only_os_Open.
  - intros f. apply read_only_bind; [apply read_only_wrap, read_only_lift |].
    intros d. apply read_only_ret.
Qed.

Lemma touches_only_file_Write filename data : touches_only (file_Write filename data) filename.
Proof. intros fs f Hf. unfold file_Write. cbn [snd]. now rewrite lookup_insert_ne. Qed.

Lemma touches_only_os_Create env filename : touches_only (os_Create env filename) filename.
Proof.
  intros fs f Hf. unfold os_Create.
  destruct (os_write_err env filename); cbn [snd]; [reflexivity |].
  now rewrite lookup_insert_ne.
Qed.

Lemma touches_only_WriteFile env filename data :
  touches_only (ioutil_WriteFile env filename data) filename.
Proof.
  intros fs f Hf. unfold ioutil_WriteFile.
  destruct (os_write_err env filename); cbn [snd]; [reflexivity |].
  now rewrite lookup_insert_ne.
Qed.

Lemma touches_only_SaveImage env filename img outputFormat :
  touches_only (SaveImage env filename img outputFormat) filename.
Proof.
  unfold SaveImage. apply touches_only_bind.
  - apply touches_only_wrap, touches_only_os_Create.
  - intros _.
    destruct (String.eqb (strings_ToLower outputFormat) "jpg"
              || String.eqb (strings_ToLower outputFormat) "jpeg");
      (apply touches_only_bind;
       [apply read_only_touches, read_only_wrap, read_only_lift
       | intros data; apply touches_only_file_Write]).
Qed.

(** X9. A single-file command changes no file other than its output file
    (the input is never deleted or rewritten), whether it succeeds or fails;
    [revealMessage] changes no file at all. *)
Theorem commands_touch_only_output (env : Env) {aead : AEAD}
    (inputFilename outputFilename outputFormat message : string)
    (key : list Z) (overwrite : bool) :
  touches_only (encryptFile env inputFilename outputFilename key overwrite)
               outputFilename /\
  touches_only (decryptFile env inputFilename outputFilename key overwrite outputFormat)
               outputFilename /\
  touches_only (hideMessage env inputFilename outputFilename message outputFormat)
               outputFilename /\
  read_only (revealMessage env inputFilename).
Proof.
  split; [| split; [| split]].
  - unfold encryptFile. apply touches_only_bind.
    + apply read_only_touches. intros fs. reflexivity.
    + intros ex. destruct (ex && negb overwrite);
        [apply read_only_touches, read_only_ret |].
      apply touches_only_bind; [apply read_only_touches, read_only_LoadImage |].
      intros img. apply touches_only_bind;
        [apply read_only_touches, read_only_wrap, read_only_lift |].
      intros imgBytes. apply touches_only_bind;
        [apply read_only_touches, read_only_lift |].
      intros ciphertext. apply touches_only_bind;
        [apply read_only_touches, read_only_check |].
      intros _. apply touches_only_bind; [apply touches_only_WriteFile |].
      intros _. apply read_only_touches, read_only_ret.
  - unfold decryptFile. apply touches_only_bind.
    + apply read_only_touches. intros fs. reflexivity.
    + intros ex. destruct (ex && negb overwrite);
        [apply read_only_touches, read_only_ret |].
      apply touches_only_bind; [apply read_only_touches, read_only_os_Open |].
      intros ciphertext. apply touches_only_bind;
        [apply read_only_touches, read_only_lift |].
      intros plaintext. apply touches_only_bind;
        [apply read_only_touches, read_only_wrap, read_only_lift |].
      intros img. apply touches_only_bind;
        [apply read_only_touches, read_only_check |].
      intros _. apply touches_only_bind; [apply touches_only_SaveImage |].
      intros _. apply read_only_touches, read_only_ret.
  - unfold hideMessage. apply touches_only_bind;
      [apply read_only_touches, read_only_LoadImage |].
    intros img. apply touches_only_bind;
      [apply read_only_touches, read_only_check |].
    intros _. apply touches_only_bind; [apply touches_only_SaveImage |].
    intros _. apply read_only_touches, read_only_ret.
  - unfold revealMessage. apply read_only_bind; [apply read_only_LoadImage |].
    intros img. apply read_only_ret.
Qed.

Lemma not_skipped (fs : FS) (outputFilename : string) (overwrite : bool) :
  fs !! outputFilename = None \/ overwrite = true ->
  bool_decide (is_Some (fs !! outputFilename)) && negb overwrite = false.
Proof.
  intros [Hn | ->]; [| apply andb_false_r].
  rewrite Hn. rewrite bool_decide_eq_false_2; [reflexivity |].
  intros [x Hx]. discriminate.
Qed.

Lemma LoadImage_ok env filename (fs : FS) data img format :
  fs !! filename = Some data -> os_read_err env filename = None ->
  image_Decode env data = Ok (img, format) ->
  LoadImage env filename fs = (Ok img, fs).
Proof.
  intros Hf Hr Hd. unfold LoadImage, bind, wrap, os_Open, lift, ret.
  rewrite Hf, Hr, Hd. reflexivity.
Qed.

Lemma bind_ret_tt (m : M unit) (fs : FS) :
  bind m (fun _ => ret tt) fs = m fs.
Proof.
  unfold bind, ret. destruct (m fs) as [[[] | e] fs1]; reflexivity.
Qed.

Lemma encryptFile_eq (env : Env) {aead : AEAD} (laws : AEAD_laws aead)
    (inputFilename outputFilename : string) (key : list Z) (overwrite : bool)
    (fs : FS) (data png : list Z) (img : image_RGBA) (format : string) :
  fs !! outputFilename = None \/ overwrite = true ->
  fs !! inputFilename = Some data ->
  os_read_err env inputFilename = None ->
  image_Decode env data = Ok (img, format) ->
  png_Encode env img = Ok png ->
  aes_key_ok key = true ->
  (NonceSize <= length (rand_Reader env inputFilename))%nat ->
  os_MkdirAll env (filepath_Dir env outputFilename) = None ->
  os_write_err env outputFilename = None ->
  encryptFile env inputFilename outputFilename key overwrite fs
    = (Ok tt,
       <[outputFilename :=
           take NonceSize (rand_Reader env inputFilename)
           ++ gcm_Seal key [] (take NonceSize (rand_Reader env inputFilename)) png []]>
         fs).
Proof.
  intros Hskip Hin Hread Hdec Henc Hk Hrnd Hmk Hw.
  unfold encryptFile, bind at 1, os_Stat_ok.
  rewrite (not_skipped fs outputFilename overwrite Hskip).
  unfold bind at 1. rewrite (LoadImage_ok env _ fs data img format Hin Hread Hdec).
  unfold bind at 1, ImageToBytes, wrap, lift. rewrite Henc.
  unfold bind at 1. rewrite (Encrypt_ok _ key png Hk Hrnd), Seal_appends.
  unfold bind at 1, check. rewrite Hmk.
  unfold bind, ioutil_WriteFile, ret. rewrite Hw. reflexivity.
Qed.

(** X10. When nothing fails, [encryptFile] writes to the output file the
    12-byte nonce followed by the sealed PNG encoding of the decoded image
    (not the bytes of the input file), [len(png) + 28] bytes in all. *)
Theorem encryptFile_success (env : Env) {aead : AEAD} (laws : AEAD_laws aead)
    (inputFilename outputFilename : string) (key : list Z) (overwrite : bool)
    (fs : FS) (data png : list Z) (img : image_RGBA) (format : string) :
  fs !! outputFilename = None \/ overwrite = true ->
  fs !! inputFilename = Some data ->
  os_read_err env inputFilename = None ->
  image_Decode env data = Ok (img, format) ->
  png_Encode env img = Ok png ->
  aes_key_ok key = true ->
  (NonceSize <= length (rand_Reader env inputFilename))%nat ->
  os_MkdirAll env (filepath_Dir env outputFilename) = None ->
  os_write_err env outputFilename = None ->
  let nonce := take NonceSize (rand_Reader env inputFilename) in
  let blob := nonce ++ gcm_Seal key [] nonce png [] in
  encryptFile env inputFilename outputFilename key overwrite fs
    = (Ok tt, <[outputFilename := blob]> fs) /\
  length blob = (length png + 28)%nat.
Proof.
  intros Hskip Hin Hread Hdec Henc Hk Hrnd Hmk Hw nonce blob. split.
  - eapply encryptFile_eq; eassumption.
  - unfold blob. rewrite length_app, Seal_length.
    unfold nonce. rewrite length_take. unfold NonceSize, TagSize in *. lia.
Qed.

Lemma encryptFile_success_witness :
  @encryptFile Demo.env Demo.aead "in/a.png" "out/a.png.enc" Demo.key0 false
     Demo.photos_fs
  = (Ok tt,
     <["out/a.png.enc"%string :=
         take NonceSize (rand_Reader Demo.env "in/a.png")
         ++ @gcm_Seal Demo.aead Demo.key0 []
              (take NonceSize (rand_Reader Demo.env "in/a.png"))
              [1; 1; 255; 255; 255; 255] []]> Demo.photos_fs).
Proof.
  refine (proj1 (encryptFile_success Demo.env (aead := Demo.aead) toy_aead_laws
            "in/a.png" "out/a.png.enc" Demo.key0 false Demo.photos_fs
            [1; 1; 255; 255; 255; 255] [1; 1; 255; 255; 255; 255]
            Demo.img1x1 "png" _ _ _ _ _ _ _ _ _)).
  - left. reflexivity.
  - reflexivity.
  - reflexivity.
  - reflexivity.
  - reflexivity.
  - reflexivity.
  - vm_compute; lia.
  - reflexivity.
  - reflexivity.
Defined.

(** X11. File round trip: when [encryptFile] has succeeded and the PNG codec
    decodes what it encoded, [decryptFile] applied to the encrypted file with
    the same key does exactly what [SaveImage] does with the originally
    decoded image and the requested format. *)
Theorem decryptFile_after_encryptFile (env : Env) {aead : AEAD}
    (laws : AEAD_laws aead)
    (inputFilename encFilename outputFilename outputFormat : string)
    (key : list Z) (overwrite overwrite' : bool)
    (fs : FS) (data png : list Z) (img : image_RGBA) (format : string) :
  fs !! encFilename = None \/ overwrite = true ->
  fs !! inputFilename = Some data ->
  os_read_err env inputFilename = None ->
  image_Decode env data = Ok (img, format) ->
  png_Encode env img = Ok png ->
  png_Decode env png = Ok img ->
  aes_key_ok key = true ->
  (NonceSize <= length (rand_Reader env inputFilename))%nat ->
  os_MkdirAll env (filepath_Dir env encFilename) = None ->
  os_write_err env encFilename = None ->
  os_read_err env encFilename = None ->
  os_MkdirAll env (filepath_Dir env outputFilename) = None ->
  (outputFilename <> encFilename /\ fs !! outputFilename = None) \/ overwrite' = true ->
  exists fs1,
    encryptFile env inputFilename encFilename key overwrite fs = (Ok tt, fs1) /\
    decryptFile env encFilename outputFilename key overwrite' outputFormat fs1
      = SaveImage env outputFilename img outputFormat fs1.
Proof.
  intros Hskip Hin Hread Hdec Henc Hpng Hk Hrnd Hmk Hw Hread' Hmk' Hskip'.
  pose proof (encryptFile_eq env laws inputFilename encFilename key overwrite
                fs data png img format Hskip Hin Hread Hdec Henc Hk Hrnd Hmk Hw)
    as HE.
  eexists. split; [exact HE |].
  set (nonce := take NonceSize (rand_Reader env inputFilename)) in *.
  set (fs1 := <[encFilename := nonce ++ gcm_Seal key [] nonce png []]> fs).
  assert (Hskip1 : fs1 !! outputFilename = None \/ overwrite' = true).
  { destruct Hskip' as [[Hne Hnone] | ->]; [left | right; reflexivity].
    unfold fs1. rewrite lookup_insert_ne by congruence. exact Hnone. }
  unfold decryptFile, bind at 1, os_Stat_ok.
  rewrite (not_skipped fs1 outputFilename overwrite' Hskip1).
  unfold bind at 1, os_Open. unfold fs1 at 1. rewrite lookup_insert_eq, Hread'.
  unfold bind at 1, lift. rewrite <- Seal_appends.
  rewrite (Decrypt_Seal laws key nonce png Hk)
    by (unfold nonce; rewrite length_take; lia).
  unfold bind at 1, BytesToImage, wrap, lift. rewrite Hpng.
  unfold bind at 1, check. rewrite Hmk'.
  apply bind_ret_tt.
Qed.

Lemma decryptFile_after_encryptFile_witness :
  exists fs1,
    @encryptFile Demo.env Demo.aead "in/a.png" "out/a.png.enc" Demo.key0 false
       Demo.photos_fs = (Ok tt, fs1) /\
    @decryptFile Demo.env Demo.aead "out/a.png.enc" "back/a.png" Demo.key0 false
       "png" fs1
    = SaveImage Demo.env "back/a.png" Demo.img1x1 "png" fs1.
Proof.
  refine (decryptFile_after_encryptFile Demo.env (aead := Demo.aead) toy_aead_laws
            "in/a.png" "out/a.png.enc" "back/a.png" "png" Demo.key0 false false
            Demo.photos_fs [1; 1; 255; 255; 255; 255] [1; 1; 255; 255; 255; 255]
            Demo.img1x1 "png" _ _ _ _ _ _ _ _ _ _ _ _ _).
  - left. reflexivity.
  - reflexivity.
  - reflexivity.
  - reflexivity.
  - reflexivity.
  - reflexivity.
  - reflexivity.
  - vm_compute; lia.
  - reflexivity.
  - reflexivity.
  - reflexivity.
  - reflexivity.
  - left. split; [discriminate | reflexivity].
Defined.

(** X12. When the output file already exists and overwriting is not
    requested, [encryptFile] and [decryptFile] return no error and change
    nothing; the input is not even opened, so a missing or undecodable input
    goes unreported. *)
Theorem existing_output_skipped (env : Env) {aead : AEAD}
    (inputFilename outputFilename outputFormat : string) (key : list Z)
    (fs : FS) (old : list Z) :
  fs !! outputFilename = Some old ->
  encryptFile env inputFilename outputFilename key false fs = (Ok tt, fs) /\
  decryptFile env inputFilename outputFilename key false outputFormat fs = (Ok tt, fs).
Proof.
  intros Hold.
  assert (Hex : bool_decide (is_Some (fs !! outputFilename)) = true)
    by (apply bool_decide_eq_true_2; rewrite Hold; eauto).
  split.
  - unfold encryptFile, bind, os_Stat_ok. rewrite Hex. reflexivity.
  - unfold decryptFile, bind, os_Stat_ok. rewrite Hex. reflexivity.
Qed.

Lemma existing_output_skipped_witness :
  @encryptFile Demo.env Demo.aead "missing.png" "in/a.png" Demo.key0 false
     Demo.photos_fs = (Ok tt, Demo.photos_fs) /\
  @decryptFile Demo.env Demo.aead "missing.png" "in/a.png" Demo.key0 false "png"
     Demo.photos_fs = (Ok tt, Demo.photos_fs).
Proof.
  apply (existing_output_skipped Demo.env (aead := Demo.aead) "missing.png"
           "in/a.png" "png" Demo.key0 Demo.photos_fs [1; 1; 255; 255; 255; 255]).
  reflexivity.
Defined.

(** X13. When [Decrypt] rejects the contents of the input file (too short,
    authentication failure, bad key), [decryptFile] leaves the file system
    as it was: the output file is not created, and an existing output file
    is not truncated, even with overwriting requested. Unless the file is
    skipped, the error returned is the one of [Decrypt]. *)
Theorem failed_decrypt_keeps_files (env : Env) {aead : AEAD}
    (inputFilename outputFilename outputFormat : string) (key : list Z)
    (overwrite : bool) (fs : FS) (data : list Z) (e : error) :
  fs !! inputFilename = Some data ->
  os_read_err env inputFilename = None ->
  Decrypt key data = Err e ->
  snd (decryptFile env inputFilename outputFilename key overwrite outputFormat fs) = fs /\
  (fs !! outputFilename = None \/ overwrite = true ->
   decryptFile env inputFilename outputFilename key overwrite outputFormat fs
     = (Err e, fs)).
Proof.
  intros Hin Hread Hdec.
  split.
  - unfold decryptFile, bind at 1, os_Stat_ok.
    destruct (bool_decide (is_Some (fs !! outputFilename)) && negb overwrite) eqn:Hs.
    + reflexivity.
    + unfold bind at 1, os_Open. rewrite Hin, Hread.
      unfold bind, lift. rewrite Hdec. reflexivity.
  - intros Hskip. unfold decryptFile, bind at 1, os_Stat_ok.
    rewrite (not_skipped fs outputFilename overwrite Hskip).
    unfold bind at 1, os_Open. rewrite Hin, Hread.
    unfold bind, lift. rewrite Hdec. reflexivity.
Qed.

Lemma failed_decrypt_keeps_files_witness :
  @decryptFile Demo.env Demo.aead "in/c.txt" "in/a.png" Demo.key0 true "png"
     Demo.photos_fs = (Err ErrCiphertextTooShort, Demo.photos_fs).
Proof.
  refine (proj2 (failed_decrypt_keeps_files Demo.env (aead := Demo.aead)
            "in/c.txt" "in/a.png" "png" Demo.key0 true Demo.photos_fs [104]
            ErrCiphertextTooShort _ _ _) _).
  - reflexivity.
  - reflexivity.
  - reflexivity.
  - right. reflexivity.
Defined.

(** X14. [SaveImage] creates the file before encoding: when the file can be
    created but the selected encoder fails, the encoder's error is returned
    and the output file is left empty, whatever it held before. *)
Theorem SaveImage_encoder_failure (env : Env) (filename outputFormat : string)
    (img : image_RGBA) (fs : FS) :
  os_write_err env filename = None ->
  (if String.eqb (strings_ToLower outputFormat) "jpg"
      || String.eqb (strings_ToLower outputFormat) "jpeg"
   then is_Ok (jpeg_Encode env img 90)
   else is_Ok (png_Encode env img)) = false ->
  exists e,
    SaveImage env filename img outputFormat fs = (Err e, <[filename := []]> fs) /\
    (e = ErrEncodeJPEG \/ e = ErrEncodePNG).
Proof.
  intros Hw Hfail. unfold SaveImage, bind, wrap, os_Create, lift. rewrite Hw.
  destruct (String.eqb (strings_ToLower outputFormat) "jpg"
            || String.eqb (strings_ToLower outputFormat) "jpeg").
  - destruct (jpeg_Encode env img 90); [discriminate |]. eauto.
  - destruct (png_Encode env img); [discriminate |]. eauto.
Qed.

Lemma lower_ascii_idem (c : ascii) : lower_ascii (lower_ascii c) = lower_ascii c.
Proof. destruct c as [[] [] [] [] [] [] [] []]; reflexivity. Qed.

Lemma strings_ToLower_idem (s : string) :
  strings_ToLower (strings_ToLower s) = strings_ToLower s.
Proof.
  induction s as [| c s IH]; cbn; [reflexivity |].
  now rewrite lower_ascii_idem, IH.
Qed.

(** X15. The output format of [SaveImage] is read without regard to letter
    case, and every format other than [jpg] and [jpeg] (for instance [png],
    [gif] or the empty string) is written as PNG, exactly as
    [SaveImageDefault] does. *)
Theorem SaveImage_format (env : Env) (filename outputFormat : string)
    (img : image_RGBA) (fs : FS) :
  SaveImage env filename img outputFormat fs
    = SaveImage env filename img (strings_ToLower outputFormat) fs /\
  (strings_ToLower outputFormat <> "jpg"%string ->
   strings_ToLower outputFormat <> "jpeg"%string ->
   SaveImage env filename img outputFormat fs = SaveImageDefault env filename img fs).
Proof.
  split.
  - unfold SaveImage. now rewrite strings_ToLower_idem.
  - intros Hjpg Hjpeg. unfold SaveImage, SaveImageDefault.
    apply String.eqb_neq in Hjpg, Hjpeg. rewrite Hjpg, Hjpeg. reflexivity.
Qed.

Lemma SaveImage_format_witness :
  SaveImage Demo.env "out.gif" Demo.img1x1 "GIF" Demo.fs
    = SaveImageDefault Demo.env "out.gif" Demo.img1x1 Demo.fs.
Proof.
  apply (SaveImage_format Demo.env "out.gif" "GIF" Demo.img1x1 Demo.fs);
    discriminate.
Defined.

Lemma SaveImage_encoder_failure_witness :
  exists e,
    SaveImage DemoMore.env_encode_fails "in/a.png" Demo.img1x1 "png" Demo.photos_fs
      = (Err e, <["in/a.png"%string := []]> Demo.photos_fs) /\
    (e = ErrEncodeJPEG \/ e = ErrEncodePNG).
Proof.
  apply (SaveImage_encoder_failure DemoMore.env_encode_fails "in/a.png" "png"
           Demo.img1x1 Demo.photos_fs); reflexivity.
Defined.

(** ** Directory commands on arbitrary trees *)

(** A property of the callback's state that every call of the callback
    keeps is kept by the whole walk. *)
Lemma walk_preserves {S : Type} (P : S -> Prop) (walkFn : WalkFunc S) :
  (forall path info err st, P st -> P (fst (walkFn path info err st))) ->
  forall (n : node) (path : string) (st : S),
    P st -> P (fst (walk walkFn path n st)).
Proof.
  intros Hfn.
  induction n as [name | name err children IH | name e] using node_ind_nested;
    intros path st Hst.
  - apply Hfn. exact Hst.
  - cbn [walk]. pose proof (Hfn path (node_info (Dir name err children)) err st Hst) as H1.
    destruct (walkFn path (node_info (Dir name err children)) err st) as [st1 err1].
    cbn [fst] in H1.
    destruct err; [exact H1 |]. destruct err1; [exact H1 |].
    revert st1 H1. clear Hst st.
    induction children as [| c rest IHrest]; intros st Hst.
    + exact Hst.
    + apply Forall_cons_1 in IH as [IHc IHall].
      rewrite walk_names_cons. cbn zeta.
      destruct c as [cname | cname cerr cch | cname ce].
      * pose proof (IHc (filepath_Join path (node_name (File cname))) st Hst) as Hc.
        destruct (walk walkFn _ (File cname) st) as [st' r]. cbn [fst] in Hc.
        destruct r as [[| e'] |]; cbn [node_info IsDir];
          first [exact Hc | apply IHrest; assumption].
      * pose proof (IHc (filepath_Join path (node_name (Dir cname cerr cch))) st Hst) as Hc.
        destruct (walk walkFn _ (Dir cname cerr cch) st) as [st' r]. cbn [fst] in Hc.
        destruct r as [[| e'] |]; cbn [node_info IsDir];
          first [exact Hc | apply IHrest; assumption].
      * pose proof (Hfn (filepath_Join path (node_name (Unstatable cname ce)))
                      (node_info (Unstatable cname ce)) (Some ce) st Hst) as Hc.
        destruct (walkFn _ (node_info (Unstatable cname ce)) (Some ce) st) as [st' r].
        cbn [fst] in Hc.
        destruct r as [[| e'] |];
          first [exact Hc | apply IHrest; assumption].
  - apply Hfn. exact Hst.
Qed.

(** X16. Whatever the directory tree holds, and whether or not the walk
    fails, [encryptDirectory] runs the per-file function only on files that
    [isImageFile] accepts, each with the output path [outputDir/rel.enc] for
    its path [rel] relative to the input directory; [decryptDirectory] gives
    each file the output path [outputDir/rel] with the suffix trimmed. *)
Theorem directory_outputs (env : Env) {aead : AEAD} (tree : node)
    (inputDir outputDir : string) (key : list Z) (recursive overwrite : bool)
    (encryptedExt outputFormat : string) (fs : FS) :
  (forall p o e,
     In (p, o, e)
        (snd (fst (encryptDirectory env tree inputDir outputDir key recursive
                      overwrite fs))) ->
     isImageFile env p fs = true /\
     exists rel, filepath_Rel env inputDir p = Ok rel /\
                 o = filepath_Join outputDir (rel ++ EncryptedExtension)%string) /\
  (forall p o e,
     In (p, o, e)
        (snd (fst (decryptDirectory env tree inputDir outputDir key recursive
                      encryptedExt overwrite outputFormat fs))) ->
     exists rel, filepath_Rel env inputDir p = Ok rel /\
                 o = filepath_Join outputDir (strings_TrimSuffix rel encryptedExt)).
Proof.
  split.
  - pose (Q := fun t : task =>
        isImageFile env (fst t) fs = true /\
        exists rel, filepath_Rel env inputDir (fst t) = Ok rel /\
                    snd t = filepath_Join outputDir (rel ++ EncryptedExtension)%string).
    assert (HQ : Forall Q
      (fst (filepath_Walk inputDir tree
              (encrypt_walkFn env fs inputDir outputDir recursive) []))).
    { unfold filepath_Walk.
      pose proof (walk_preserves (Forall Q)
                    (encrypt_walkFn env fs inputDir outputDir recursive)) as Hw.
      specialize (Hw ltac:(
        intros path info err st Hst; unfold encrypt_walkFn;
        destruct err; [exact Hst |];
        destruct (IsDir info && negb (String.eqb path inputDir) && negb recursive);
          [exact Hst |];
        destruct (negb (IsDir info)); [| exact Hst];
        destruct (isImageFile env path fs) eqn:Himg; [| exact Hst];
        destruct (filepath_Rel env inputDir path) as [rel |] eqn:Hrel; [| exact Hst];
        cbn [fst]; apply Forall_app; split; [exact Hst |];
        constructor; [| constructor]; split; [exact Himg | eauto])
        tree inputDir [] (List.Forall_nil _)).
      destruct (walk _ inputDir tree []) as [st' [[| e] |]]; exact Hw. }
    intros p o e Hin. unfold encryptDirectory in Hin.
    destruct (filepath_Walk inputDir tree
                (encrypt_walkFn env fs inputDir outputDir recursive) [])
      as [spawned err]. cbn [fst] in HQ.
    pose proof (run_tasks_all (fun p o => encryptFile env p o key overwrite) spawned fs)
      as Hall.
    destruct (run_tasks _ spawned fs) as [outs fs']. cbn [fst snd] in *.
    assert (Ht : In (p, o) spawned).
    { rewrite <- Hall. apply (in_map fst) in Hin. exact Hin. }
    rewrite Forall_forall in HQ. apply list_elem_of_In in Ht.
    exact (HQ (p, o) Ht).
  - pose (Q := fun t : task =>
        exists rel, filepath_Rel env inputDir (fst t) = Ok rel /\
                    snd t = filepath_Join outputDir (strings_TrimSuffix rel encryptedExt)).
    assert (HQ : Forall Q
      (fst (filepath_Walk inputDir tree
              (decrypt_walkFn env inputDir outputDir recursive encryptedExt) []))).
    { unfold filepath_Walk.
      pose proof (walk_preserves (Forall Q)
                    (decrypt_walkFn env inputDir outputDir recursive encryptedExt)) as Hw.
      specialize (Hw ltac:(
        intros path info err st Hst; unfold decrypt_walkFn;
        destruct err; [exact Hst |];
        destruct (IsDir info && negb (String.eqb path inputDir) && negb recursive);
          [exact Hst |];
        destruct (negb (IsDir info) && strings_HasSuffix (Name info) encryptedExt);
          [| exact Hst];
        destruct (filepath_Rel env inputDir path) as [rel |] eqn:Hrel; [| exact Hst];
        cbn [fst]; apply Forall_app; split; [exact Hst |];
        constructor; [| constructor]; unfold Q; eauto)
        tree inputDir [] (List.Forall_nil _)).
      destruct (walk _ inputDir tree []) as [st' [[| e] |]]; exact Hw. }
    intros p o e Hin. unfold decryptDirectory in Hin.
    destruct (filepath_Walk inputDir tree
                (decrypt_walkFn env inputDir outputDir recursive encryptedExt) [])
      as [spawned err]. cbn [fst] in HQ.
    pose proof (run_tasks_all
                  (fun p o => decryptFile env p o key overwrite outputFormat) spawned fs)
      as Hall.
    destruct (run_tasks _ spawned fs) as [outs fs']. cbn [fst snd] in *.
    assert (Ht : In (p, o) spawned).
    { rewrite <- Hall. apply (in_map fst) in Hin. exact Hin. }
    rewrite Forall_forall in HQ. apply list_elem_of_In in Ht.
    exact (HQ (p, o) Ht).
Qed.

Lemma substring_prefix (s suffix : string) :
  substring 0 (String.length s) (s ++ suffix) = s.
Proof.
  induction s as [| c s IH]; simpl.
  - destruct suffix; reflexivity.
  - now rewrite IH.
Qed.

Lemma TrimSuffix_app (s suffix : string) :
  strings_TrimSuffix (s ++ suffix) suffix = s.
Proof.
  unfold strings_TrimSuffix. rewrite HasSuffix_app, string_length_append.
  replace (String.length s + String.length suffix - String.length suffix)%nat
    with (String.length s) by lia.
  apply substring_prefix.
Qed.

(** X17. Decryption gives a file produced by encryption the relative path
    of the original image: for a file at [outputDir/rel.enc] whose name
    carries the suffix, the callback of [decryptDirectory] run on [outputDir]
    starts a goroutine with output path [outputDir2/rel], when [filepath.Rel]
    inverts [filepath.Join] there. *)
Theorem decrypt_restores_relative_path (env : Env)
    (outputDir outputDir2 rel name : string) (recursive : bool)
    (spawned : list task) :
  let encPath := filepath_Join outputDir (rel ++ EncryptedExtension)%string in
  filepath_Rel env outputDir encPath = Ok (rel ++ EncryptedExtension)%string ->
  strings_HasSuffix name EncryptedExtension = true ->
  decrypt_walkFn env outputDir outputDir2 recursive EncryptedExtension
    encPath (mkInfo name false) None spawned
  = (spawned ++ [(encPath, filepath_Join outputDir2 rel)], None).
Proof.
  intros encPath Hrel Hname. rewrite decrypt_walkFn_spec. cbn [IsDir Name].
  rewrite andb_false_l, andb_true_l, Hname, Hrel, TrimSuffix_app. reflexivity.
Qed.

Lemma decrypt_restores_relative_path_witness :
  decrypt_walkFn Demo.env "out" "back" false EncryptedExtension
    (filepath_Join "out" ("a.png" ++ EncryptedExtension)%string)
    (mkInfo "a.png.enc" false) None []
  = ([] ++ [(filepath_Join "out" ("a.png" ++ EncryptedExtension)%string,
             filepath_Join "back" "a.png")], None).
Proof.
  apply (decrypt_restores_relative_path Demo.env "out" "back" "a.png" "a.png.enc"
           false []); reflexivity.
Defined.

(** The walk of a callback that returns the error it is handed. *)
Section WalkAbort.
Variables (env : Env) (inputDir : string) (recursive : bool).
Variables (sel : string -> FileInfo -> bool) (mk : string -> string).
Variable walkFn : WalkFunc (list task).

Hypothesis walkFn_spec : forall path info spawned,
  walkFn path info None spawned =
  if IsDir info && negb (String.eqb path inputDir) && negb recursive
  then (spawned, Some SkipDir)
  else if negb (IsDir info) && sel path info then
    match filepath_Rel env inputDir path with
    | Err e => (spawned, Some (Abort e))
    | Ok relPath => (spawned ++ [(path, mk relPath)], None)
    end
  else (spawned, None).

Hypothesis walkFn_err : forall path info e spawned,
  walkFn path info (Some e) spawned = (spawned, Some (Abort e)).

Hypothesis Rel_total : forall p, is_Ok (filepath_Rel env inputDir p) = true.

Lemma walk_names_prefix (pre rest : list node) (path : string) (top : bool) :
  forallb readable pre = true ->
  (if top then path = inputDir
   else (String.length inputDir < String.length path)%nat) ->
  forall sp,
    walk_names walkFn (walk walkFn) path (pre ++ rest) sp
    = walk_names walkFn (walk walkFn) path rest
        (sp ++ map (fun p => (p, mk (rel_of env inputDir p)))
                   (flat_map (fun c => files_under sel recursive false
                                (filepath_Join path (node_name c)) c) pre)).
Proof.
  intros Hr Hp. induction pre as [| c pre IH]; intros sp.
  - cbn. now rewrite app_nil_r.
  - cbn [forallb] in Hr. apply andb_true_iff in Hr as [Hc Hpre].
    destruct (walk_readable env inputDir recursive sel mk walkFn walkFn_spec
                Rel_total c Hc (filepath_Join path (node_name c)) false sp)
      as (r & Hw & Hcase).
    { eapply Join_longer. exact Hp. }
    cbn [app]. rewrite walk_names_cons. cbn zeta.
    cbn [flat_map]. rewrite map_app, app_assoc.
    destruct c as [cname | cname cerr cch | cname ce]; [| | discriminate Hc].
    + rewrite Hw. destruct Hcase as [-> | [-> Hd]]; [| discriminate Hd].
      apply IH. exact Hpre.
    + rewrite Hw. destruct Hcase as [-> | [-> Hd]].
      * apply IH. exact Hpre.
      * rewrite Hd. apply IH. exact Hpre.
Qed.

Lemma walk_names_fail (bad : node) (post : list node) (path : string) (e : error) sp :
  entry_error bad = Some e ->
  walk_names walkFn (walk walkFn) path (bad :: post) sp = (sp, Some (Abort e)).
Proof.
  intros Hbad. rewrite walk_names_cons. cbn zeta.
  destruct bad as [bname | bname berr bch | bname be]; cbn in Hbad.
  - discriminate.
  - destruct berr as [e' |]; [| discriminate]. injection Hbad as ->.
    cbn [walk]. rewrite walkFn_err. reflexivity.
  - injection Hbad as ->. rewrite walkFn_err. reflexivity.
Qed.

Lemma Walk_first_failure (name : string) (pre post : list node) (bad : node) (e : error) :
  forallb readable pre = true ->
  entry_error bad = Some e ->
  filepath_Walk inputDir (Dir name None (pre ++ bad :: post)) walkFn []
  = (map (fun p => (p, mk (rel_of env inputDir p)))
         (files_under sel recursive true inputDir (Dir name None pre)),
     Some e).
Proof.
  intros Hpre Hbad. unfold filepath_Walk. cbn [walk node_info files_under orb].
  rewrite walkFn_spec. cbn [IsDir].
  rewrite String.eqb_refl. cbn [negb andb].
  rewrite (walk_names_prefix pre (bad :: post) inputDir true Hpre eq_refl).
  rewrite (walk_names_fail bad post inputDir e _ Hbad). reflexivity.
Qed.
End WalkAbort.

Lemma outcomes_paths (body : string -> string -> M unit) (spawned : list task)
    (fs : FS) (f : string -> string) (paths : list string) :
  spawned = map (fun p => (p, f p)) paths ->
  map (fun out : outcome => fst (fst out)) (fst (run_tasks body spawned fs)) = paths.
Proof.
  intros ->. pose proof (run_tasks_all body (map (fun p => (p, f p)) paths) fs) as Hall.
  apply (f_equal (map fst)) in Hall. rewrite !map_map in Hall.
  cbn [fst] in Hall. rewrite map_id in Hall. exact Hall.
Qed.



(** ** The steganography commands end to end *)

Lemma toRGBA_id (img : image_RGBA) :
  length (Pix img) = (Dx img * Dy img)%nat -> toRGBA img = img.
Proof.
  intros Hlen. apply image_eq; [| reflexivity | reflexivity].
  unfold toRGBA; cbn [Pix].
  pose (P := fun (k : nat) (pix : list color_RGBA) => pix = take k (Pix img)).
  assert (HP : P (Dy img * Dx img)%nat
    (for_loop (Dy img) 0 (fun y pix =>
       for_loop (Dx img) 0 (fun x pix => pix ++ [At img x y]) pix) [])).
  { apply (grid_loop_inv P (fun y x pix => pix ++ [At img x y])).
    - reflexivity.
    - intros x y pix Hx Hy ->. unfold P.
      pose proof (At_pixel img x y Hlen Hx Hy) as Hat. unfold pixel in Hat.
      now rewrite (take_S_r _ _ _ Hat). }
  unfold P in HP. rewrite HP. apply take_ge. lia.
Qed.

Lemma SaveImage_png (env : Env) (filename outputFormat : string) (img : image_RGBA)
    (fs : FS) (data : list Z) :
  strings_ToLower outputFormat <> "jpg"%string ->
  strings_ToLower outputFormat <> "jpeg"%string ->
  os_write_err env filename = None ->
  png_Encode env img = Ok data ->
  SaveImage env filename img outputFormat fs = (Ok tt, <[filename := data]> fs).
Proof.
  intros Hjpg Hjpeg Hw Henc. apply String.eqb_neq in Hjpg, Hjpeg.
  unfold SaveImage, bind, wrap, os_Create, lift, file_Write.
  rewrite Hw, Hjpg, Hjpeg, Henc. cbn [orb]. now rewrite insert_insert_eq.
Qed.

(** X19. [stego hide] followed by [stego reveal]: when the input decodes to
    a well-formed image, the output format is not JPEG, nothing fails and the
    codec decodes the saved file to the buffer that was saved, revealing the
    output file returns the upper four bits of the message bytes that fit in
    the image, cut at the first byte that becomes NUL. *)
Theorem hide_then_reveal_files (env : Env)
    (inputFilename outputFilename message outputFormat format format' : string)
    (fs : FS) (input data : list Z) (src : image_RGBA) :
  fs !! inputFilename = Some input ->
  os_read_err env inputFilename = None ->
  image_Decode env input = Ok (src, format) ->
  image_ok src = true ->
  strings_ToLower outputFormat <> "jpg"%string ->
  strings_ToLower outputFormat <> "jpeg"%string ->
  os_MkdirAll env (filepath_Dir env outputFilename) = None ->
  os_write_err env outputFilename = None ->
  png_Encode env (hide src message) = Ok data ->
  os_read_err env outputFilename = None ->
  image_Decode env data = Ok (hide src message, format') ->
  exists fs',
    hideMessage env inputFilename outputFilename message outputFormat fs = (Ok tt, fs') /\
    revealMessage env outputFilename fs'
    = (Ok (string_of_bytes
             (truncate_at_NUL
                (map high_nibble
                   (take (Dx src * Dy src)
                         (bytes_of_string (message ++ String NUL EmptyString)))))),
       fs').
Proof.
  intros Hin Hread Hdec Hok Hjpg Hjpeg Hmk Hw Henc Hread' Hdec'.
  assert (Hlen : length (Pix src) = (Dx src * Dy src)%nat).
  { unfold image_ok in Hok. apply andb_true_iff in Hok as [Hl _].
    now apply Nat.eqb_eq in Hl. }
  pose proof (hide_image_ok src message Hok) as Hok'.
  assert (Hlen' : length (Pix (hide src message))
                  = (Dx (hide src message) * Dy (hide src message))%nat).
  { unfold image_ok in Hok'. apply andb_true_iff in Hok' as [Hl _].
    now apply Nat.eqb_eq in Hl. }
  exists (<[outputFilename := data]> fs). split.
  - unfold hideMessage, bind at 1.
    rewrite (LoadImage_ok env _ fs input src format Hin Hread Hdec).
    rewrite (toRGBA_id src Hlen).
    unfold bind at 1, check. rewrite Hmk.
    unfold bind. rewrite (SaveImage_png env _ _ _ fs data Hjpg Hjpeg Hw Henc).
    reflexivity.
  - unfold revealMessage, bind.
    rewrite (LoadImage_ok env _ _ data (hide src message) format'
               (lookup_insert_eq _ _ _) Hread' Hdec').
    rewrite (toRGBA_id _ Hlen'), (reveal_hide_any src message Hok). reflexivity.
Qed.

Lemma hide_then_reveal_files_witness :
  exists fs',
    hideMessage Demo.env "in.png" "out.png" "P" "PNG" Demo.fs = (Ok tt, fs') /\
    revealMessage Demo.env "out.png" fs'
    = (Ok (string_of_bytes
             (truncate_at_NUL
                (map high_nibble
                   (take (Dx Demo.img1x1 * Dy Demo.img1x1)
                         (bytes_of_string ("P" ++ String NUL EmptyString)))))),
       fs').
Proof.
  refine (hide_then_reveal_files Demo.env "in.png" "out.png" "P" "PNG" "png" "png"
            Demo.fs [1; 1; 255; 255; 255; 255] [1; 1; 254; 255; 254; 255]
            Demo.img1x1 _ _ _ _ _ _ _ _ _ _ _).
  - reflexivity.
  - reflexivity.
  - reflexivity.
  - reflexivity.
  - discriminate.
  - discriminate.
  - reflexivity.
  - reflexivity.
  - reflexivity.
  - reflexivity.
  - reflexivity.
Defined.

Lemma directory_outputs_witness :
  isImageFile Demo.env_write_fails "in/b.png" Demo.photos_fs = true /\
  exists rel,
    filepath_Rel Demo.env_write_fails "in" "in/b.png" = Ok rel /\
    "out/b.png.enc"%string = filepath_Join "out" (rel ++ EncryptedExtension)%string.
Proof.
  apply (proj1 (directory_outputs Demo.env_write_fails (aead := Demo.aead)
                  Demo.photos "in" "out" Demo.key0 false false ".enc" "png"
                  Demo.photos_fs) "in/b.png" "out/b.png.enc" None).
  vm_compute. right. left. reflexivity.
Defined.

(** * Directory runs: isolation and fan-out *)

Lemma encryptFile_touches (env : Env) {aead : AEAD} (key : list Z) (overwrite : bool)
    (p o : string) :
  touches_only (encryptFile env p o key overwrite) o.
Proof.
  unfold encryptFile. apply touches_only_bind.
  - apply read_only_touches. intros fs. reflexivity.
  - intros ex. destruct (ex && negb overwrite);
      [apply read_only_touches, read_only_ret |].
    apply touches_only_bind; [apply read_only_touches, read_only_LoadImage |].
    intros img. apply touches_only_bind;
      [apply read_only_touches, read_only_wrap, read_only_lift |].
    intros imgBytes. apply touches_only_bind;
      [apply read_only_touches, read_only_lift |].
    intros ciphertext. apply touches_only_bind;
      [apply read_only_touches, read_only_check |].
    intros _. apply touches_only_bind; [apply touches_only_WriteFile |].
    intros _. apply read_only_touches, read_only_ret.
Qed.

Lemma decryptFile_touches (env : Env) {aead : AEAD} (key : list Z) (overwrite : bool)
    (outputFormat p o : string) :
  touches_only (decryptFile env p o key overwrite outputFormat) o.
Proof.
  unfold decryptFile. apply touches_only_bind.
  - apply read_only_touches. intros fs. reflexivity.
  - intros ex. destruct (ex && negb overwrite);
      [apply read_only_touches, read_only_ret |].
    apply touches_only_bind; [apply read_only_touches, read_only_os_Open |].
    intros ciphertext. apply touches_only_bind;
      [apply read_only_touches, read_only_lift |].
    intros plaintext. apply touches_only_bind;
      [apply read_only_touches, read_only_wrap, read_only_lift |].
    intros img. apply touches_only_bind;
      [apply read_only_touches, read_only_check |].
    intros _. apply touches_only_bind; [apply touches_only_SaveImage |].
    intros _. apply read_only_touches, read_only_ret.
Qed.

Lemma encryptFile_local (env : Env) {aead : AEAD} (key : list Z) (overwrite : bool) :
  local_to_files (fun p o => encryptFile env p o key overwrite).
Proof.
  intros p o fs1 fs2 Hp Ho.
  unfold encryptFile, bind, os_Stat_ok, LoadImage, ImageToBytes, wrap, os_Open,
    lift, ret, check, ioutil_WriteFile, bind.
  rewrite Ho.
  destruct (bool_decide (is_Some (fs2 !! o)) && negb overwrite);
    [split; [reflexivity | exact Ho] |].
  cbv beta. rewrite Hp.
  destruct (fs2 !! p) as [data |]; [| split; [reflexivity | exact Ho]].
  destruct (os_read_err env p); [split; [reflexivity | exact Ho] |].
  destruct (image_Decode env data) as [[img fmt] |];
    [| split; [reflexivity | exact Ho]].
  cbn [fst].
  destruct (png_Encode env img) as [png |]; [| split; [reflexivity | exact Ho]].
  destruct (Encrypt (rand_Reader env p) key png) as [ct |];
    [| split; [reflexivity | exact Ho]].
  destruct (os_MkdirAll env (filepath_Dir env o));
    [split; [reflexivity | exact Ho] |].
  destruct (os_write_err env o); [split; [reflexivity | exact Ho] |].
  cbn [fst snd]. split; [reflexivity |]. now rewrite !lookup_insert_eq.
Qed.

Lemma decryptFile_local (env : Env) {aead : AEAD} (key : list Z) (overwrite : bool)
    (outputFormat : string) :
  local_to_files (fun p o => decryptFile env p o key overwrite outputFormat).
Proof.
  intros p o fs1 fs2 Hp Ho.
  unfold decryptFile, bind, os_Stat_ok, BytesToImage, SaveImage, wrap, os_Open,
    os_Create, file_Write, lift, ret, check, bind.
  rewrite Ho.
  destruct (bool_decide (is_Some (fs2 !! o)) && negb overwrite);
    [split; [reflexivity | exact Ho] |].
  cbv beta. rewrite Hp.
  destruct (fs2 !! p) as [data |]; [| split; [reflexivity | exact Ho]].
  destruct (os_read_err env p); [split; [reflexivity | exact Ho] |].
  destruct (Decrypt key data) as [pt |]; [| split; [reflexivity | exact Ho]].
  destruct (png_Decode env pt) as [img |]; [| split; [reflexivity | exact Ho]].
  destruct (os_MkdirAll env (filepath_Dir env o));
    [split; [reflexivity | exact Ho] |].
  destruct (os_write_err env o); [split; [reflexivity | exact Ho] |].
  destruct (String.eqb (strings_ToLower outputFormat) "jpg"
            || String.eqb (strings_ToLower outputFormat) "jpeg").
  - destruct (jpeg_Encode env img 90); cbn [fst snd];
      (split; [reflexivity | now rewrite !lookup_insert_eq]).
  - destruct (png_Encode env img); cbn [fst snd];
      (split; [reflexivity | now rewrite !lookup_insert_eq]).
Qed.

(** Running the started goroutines, for a per-file function that writes
    only its output file and looks only at its own two files. *)
Section RunTasks.
Variable body : string -> string -> M unit.

Lemma run_tasks_processed (tasks : list task) (fs : FS) :
  processed body tasks fs (fst (run_tasks body tasks fs)) (snd (run_tasks body tasks fs)).
Proof.
  revert fs. induction tasks as [| [p o] rest IH]; intros fs.
  - constructor.
  - cbn [run_tasks]. destruct (body p o fs) as [r fs1] eqn:Hb.
    specialize (IH fs1). destruct (run_tasks body rest fs1) as [outs fs2].
    cbn [fst snd] in *.
    exact (processed_cons body p o rest fs fs1 fs2 r outs Hb IH).
Qed.

Hypothesis body_touches : forall p o, touches_only (body p o) o.
Hypothesis body_local : local_to_files body.

Lemma run_tasks_isolated (fs0 : FS) (tasks : list task) :
  independent tasks ->
  forall fs : FS,
    (forall t, t ∈ tasks -> fs !! fst t = fs0 !! fst t /\ fs !! snd t = fs0 !! snd t) ->
    fst (run_tasks body tasks fs)
      = map (fun t : task => (t, error_of (fst (body (fst t) (snd t) fs0)))) tasks /\
    (forall t, t ∈ tasks ->
       snd (run_tasks body tasks fs) !! snd t = snd (body (fst t) (snd t) fs0) !! snd t) /\
    (forall f, f ∉ map snd tasks -> snd (run_tasks body tasks fs) !! f = fs !! f).
Proof.
  induction tasks as [| [p o] rest IH]; intros [Hnd Hio] fs Hagree.
  - cbn. split; [reflexivity |]. split; [| reflexivity].
    intros t Ht. apply elem_of_nil in Ht. contradiction.
  - cbn [map snd] in Hnd. apply NoDup_cons in Hnd as [Ho Hnd].
    assert (Hind : independent rest).
    { split; [exact Hnd |]. intros t t' Ht Ht'.
      apply Hio; apply elem_of_cons; right; assumption. }
    destruct (Hagree (p, o)) as [Hp Hoo]; [apply elem_of_cons; left; reflexivity |].
    cbn [fst snd] in Hp, Hoo.
    destruct (body_local p o fs fs0 Hp Hoo) as [Hres Hout].
    pose proof (body_touches p o fs) as Hframe.
    cbn [run_tasks]. destruct (body p o fs) as [r fs1] eqn:Hb.
    cbn [fst snd] in Hres, Hout, Hframe.
    assert (Hagree1 : forall t, t ∈ rest ->
              fs1 !! fst t = fs0 !! fst t /\ fs1 !! snd t = fs0 !! snd t).
    { intros t Ht.
      destruct (Hagree t) as [H1 H2]; [apply elem_of_cons; right; exact Ht |].
      split.
      - rewrite Hframe; [exact H1 |].
        intros Heq. apply (Hio t (p, o)); [apply elem_of_cons; right; exact Ht
                                          | apply elem_of_cons; left; reflexivity |].
        cbn [snd]. symmetry. exact Heq.
      - rewrite Hframe; [exact H2 |].
        intros Heq. apply Ho. rewrite <- Heq.
        apply list_elem_of_fmap. exists t. split; [reflexivity | exact Ht]. }
    destruct (IH Hind fs1 Hagree1) as (Houts & Hfiles & Hothers).
    destruct (run_tasks body rest fs1) as [outs fs2]. cbn [fst snd] in *.
    split; [| split].
    + cbn [map fst snd]. rewrite Houts. rewrite <- Hres. reflexivity.
    + intros t Ht. apply elem_of_cons in Ht as [-> | Ht].
      * cbn [fst snd]. rewrite (Hothers o Ho). exact Hout.
      * apply Hfiles. exact Ht.
    + intros f Hf. cbn [map snd] in Hf. apply not_elem_of_cons in Hf as [Hne Hf].
      rewrite (Hothers f Hf). apply Hframe. exact Hne.
Qed.
End RunTasks.

Lemma Walk_encrypt_readable (env : Env) (fs : FS) (tree : node)
    (inputDir outputDir : string) (recursive : bool) :
  readable tree = true ->
  (forall p, is_Ok (filepath_Rel env inputDir p) = true) ->
  filepath_Walk inputDir tree (encrypt_walkFn env fs inputDir outputDir recursive) []
  = (map (encrypt_task env inputDir outputDir)
         (files_under (fun p _ => isImageFile env p fs) recursive true inputDir tree),
     None).
Proof.
  intros Hr Hrel.
  exact (Walk_readable env inputDir recursive
           (fun p _ => isImageFile env p fs)
           (fun rel => filepath_Join outputDir (rel ++ EncryptedExtension)%string)
           (encrypt_walkFn env fs inputDir outputDir recursive)
           (encrypt_walkFn_spec env fs inputDir outputDir recursive) Hrel tree Hr).
Qed.

Lemma Walk_decrypt_readable (env : Env) (tree : node)
    (inputDir outputDir : string) (recursive : bool) (encryptedExt : string) :
  readable tree = true ->
  (forall p, is_Ok (filepath_Rel env inputDir p) = true) ->
  filepath_Walk inputDir tree
    (decrypt_walkFn env inputDir outputDir recursive encryptedExt) []
  = (map (decrypt_task env inputDir outputDir encryptedExt)
         (files_under (fun _ info => strings_HasSuffix (Name info) encryptedExt)
                      recursive true inputDir tree),
     None).
Proof.
  intros Hr Hrel.
  exact (Walk_readable env inputDir recursive
           (fun _ info => strings_HasSuffix (Name info) encryptedExt)
           (fun rel => filepath_Join outputDir (strings_TrimSuffix rel encryptedExt))
           (decrypt_walkFn env inputDir outputDir recursive encryptedExt)
           (decrypt_walkFn_spec env inputDir outputDir recursive encryptedExt)
           Hrel tree Hr).
Qed.

Lemma run_tasks_fst (body : string -> string -> M unit) (tasks : list task) (fs : FS) :
  map (fun out : outcome => fst out) (fst (run_tasks body tasks fs)) = tasks.
Proof. exact (run_tasks_all body tasks fs). Qed.


Lemma photos_tasks_independent :
  independent
    (map (encrypt_task Demo.env_write_fails "in" "out")
         (files_under (fun p _ => isImageFile Demo.env_write_fails p Demo.photos_fs)
                      false true "in" Demo.photos)).
Proof.
  change (independent [("in/a.png", "out/a.png.enc"); ("in/b.png", "out/b.png.enc")]%string).
  split.
  - cbn [map snd]. repeat (apply NoDup_cons; split);
      [| | apply NoDup_nil; exact I];
      rewrite ?elem_of_cons, ?elem_of_nil; intros H;
      repeat (destruct H as [H | H]); try discriminate H; exact H.
  - intros t t' Ht Ht'.
    rewrite !elem_of_cons, elem_of_nil in Ht, Ht'.
    destruct Ht as [-> | [-> | []]]; destruct Ht' as [-> | [-> | []]];
      discriminate.
Qed.


(** Every goroutine [encryptDirectory] starts is for a file that
    [isImageFile] accepts, whatever the tree and however the walk ends. *)
Lemma encrypt_spawned_images (env : Env) (fs : FS) (tree : node)
    (inputDir outputDir : string) (recursive : bool) :
  Forall (fun t : task => isImageFile env (fst t) fs = true)
         (encrypt_spawned env fs tree inputDir outputDir recursive).
Proof.
  unfold encrypt_spawned, filepath_Walk.
  pose proof (walk_preserves
                (Forall (fun t : task => isImageFile env (fst t) fs = true))
                (encrypt_walkFn env fs inputDir outputDir recursive)) as Hw.
  assert (Hstep : forall path info err st,
            Forall (fun t : task => isImageFile env (fst t) fs = true) st ->
            Forall (fun t : task => isImageFile env (fst t) fs = true)
                   (fst (encrypt_walkFn env fs inputDir outputDir recursive
                           path info err st))).
  { intros path info err st Hst. unfold encrypt_walkFn.
    destruct err; [exact Hst |].
    destruct (IsDir info && negb (String.eqb path inputDir) && negb recursive);
      [exact Hst |].
    destruct (negb (IsDir info)); [| exact Hst].
    destruct (isImageFile env path fs) eqn:Himg; [| exact Hst].
    destruct (filepath_Rel env inputDir path) as [rel |]; [| exact Hst].
    cbn [fst]. apply Forall_app. split; [exact Hst |].
    constructor; [exact Himg | constructor]. }
  specialize (Hw Hstep tree inputDir [] (List.Forall_nil _)).
  destruct (walk _ inputDir tree []) as [st' [[| e] |]]; exact Hw.
Qed.

Lemma in_flight_bound (spawned : list task) (s : sched) :
  reachable spawned s -> (length (in_flight s) <= length spawned)%nat.
Proof. intros Hs. pose proof (reachable_count _ _ Hs). lia. Qed.

Lemma map_fst_encrypt_task env inputDir outputDir (files : list string) :
  map fst (map (encrypt_task env inputDir outputDir) files) = files.
Proof. rewrite map_map. cbn [encrypt_task fst]. apply map_id. Qed.

Lemma map_fst_decrypt_task env inputDir outputDir ext (files : list string) :
  map fst (map (decrypt_task env inputDir outputDir ext) files) = files.
Proof. rewrite map_map. cbn [decrypt_task fst]. apply map_id. Qed.


